(** * kumose-go/env: the fragment merge engine

    A shallow embedding of package [env] (priority validation, the
    stable sort and merge of environment fragments, the three shell
    emitters, search, and the YAML persistence) and the properties of
    its specification.

    Conventions of the embedding:
    - Go [string] is [string]; Go [int] is [Z] (priorities are only
      compared, never computed with, so no wrap-around occurs);
    - [map[string]string] is [gmap string string]; reading a missing key
      gives the zero value, which is written [default _ (m !! k)];
    - [for k, v := range m] visits the entries of [m] in an order the Go
      runtime chooses afresh for each loop: the order is an explicit
      argument, a [RangeOrder];
    - [time.Now], the file system, package [regexp] and the YAML codec
      are the outside world: they are arguments of the operations. *)

From stdpp Require Import gmap strings list fin_maps sorting.
From Stdlib Require Import ZArith Ascii String.

Open Scope string_scope.
Open Scope list_scope.
Open Scope Z_scope.

(** ** Data model *)

(** [type Script struct { Sh string; Data string }] *)
Record Script := mkScript {
  Sh : string;    (* shell type: bash, zsh, powershell *)
  Data : string;  (* script content *)
}.

(** [type EnvFragment struct]; the field [Script []Script] is [Scripts]
    here, since a record type and a projection cannot share a name. *)
Record EnvFragment := mkFragment {
  Name : string;
  Priority : Z;
  Env : gmap string string;
  Scripts : list Script;
  Source : string;
}.

(** [time.Time], as far as the package looks at it: an opaque instant. *)
Definition Time := Z.

(** [type EnvManager struct].  [merged] is a Go map that starts [nil] and
    is tested against [nil] by [SortAndMerge], hence the [option];
    [keySources] is only ever read or replaced, so [nil] and the empty
    map coincide for it. *)
Record EnvManager := mkManager {
  fragments : list EnvFragment;
  merged : option (gmap string string);
  keySources : gmap string (list string);
  sorted : bool;
  ctime : Time;
}.

(** [&env.EnvManager{}], the zero value. *)
Definition newManager : EnvManager :=
  {| fragments := []; merged := None; keySources := ∅;
     sorted := false; ctime := 0 |}.

(** [e.merged[k]] as Go reads it (a [nil] map reads as empty). *)
Definition merged_map (e : EnvManager) : gmap string string :=
  default ∅ (merged e).

(** The errors of the package, one constructor per [fmt.Errorf] site
    (or propagated library error). *)
Inductive error :=
  | ErrNoName                                   (* "fragment must have a name" *)
  | ErrSystemPriority (name : string) (p : Z)   (* "system fragment %s priority must be 0-19, got %d" *)
  | ErrInternalPriority (name : string) (p : Z) (* "internal component %s priority must be 20-99, got %d" *)
  | ErrCustomPriority (name : string) (p : Z)   (* "custom fragment %s priority must >=100, got %d" *)
  | ErrReadFile (path : string)                 (* "failed to read file %s: %w" and the like *)
  | ErrParseYAML (path : string)                (* "failed to parse YAML in %s: %w" *)
  | ErrValidation (name path : string) (cause : error)
                                                (* "validation failed for fragment %s in %s: %w" *)
  | ErrNotBuilt                                 (* "not build complete yet" *)
  | ErrNotGen                                   (* "not gen yet" *)
  | ErrInvalidPattern (pattern : string)        (* "invalid pattern: %v" *)
  | ErrCreate (path : string)                   (* the error of os.Create / os.WriteFile *)
  | ErrMarshal                                  (* "failed to marshal EnvManager to YAML: %w" *)
  | ErrUnmarshal.                               (* "failed to unmarshal YAML: %w" *)

(** The error kinds the specification names. *)
Inductive error_kind :=
  | EmptyName | PriorityOutOfRange | NotMerged | InvalidPattern | Upstream.

Fixpoint kind_of (err : error) : error_kind :=
  match err with
  | ErrNoName => EmptyName
  | ErrSystemPriority _ _ | ErrInternalPriority _ _ | ErrCustomPriority _ _ =>
      PriorityOutOfRange
  | ErrValidation _ _ cause => kind_of cause
  | ErrNotBuilt | ErrNotGen => NotMerged
  | ErrInvalidPattern _ => InvalidPattern
  | ErrReadFile _ | ErrParseYAML _ | ErrCreate _ | ErrMarshal | ErrUnmarshal =>
      Upstream
  end.

(** ** Map iteration order *)

(** What [range] over a map may do: visit every entry exactly once, in
    any order.  The index is the number of the loop iteration that
    performs the [range], so two fragments with the same [Env] may be
    walked in different orders. *)
Record RangeOrder := mkRangeOrder {
  range_of : nat → gmap string string → list (string * string);
  range_perm : ∀ i m, range_of i m ≡ₚ map_to_list m;
}.

(** One legal order: the one [map_to_list] happens to produce. *)
Definition canonical_order : RangeOrder :=
  {| range_of := λ _ m, map_to_list m;
     range_perm := λ _ m, reflexivity (map_to_list m) |}.

(** Another: the reverse of it. *)
Definition reverse_order : RangeOrder :=
  {| range_of := λ _ m, reverse (map_to_list m);
     range_perm := λ _ m, reverse_Permutation (map_to_list m) |}.

(** ** Priority validation *)

Section Validation.
(** [var SystemEnv map[string]int] and [var InnerComponentEnv
    map[string]int]: exported package variables the embedding program
    fills in. *)
Variables SystemEnv InnerComponentEnv : gmap string Z.

(** The tier the [switch] of [validateFragment] selects. *)
Inductive tier := System | Internal | Custom.

Definition classify (name : string) : tier :=
  if 0 <? default 0 (SystemEnv !! name) then System
  else if 0 <? default 0 (InnerComponentEnv !! name) then Internal
  else Custom.

(** [func validateFragment(frag *EnvFragment) error]; [None] is [nil]. *)
Definition validateFragment (frag : EnvFragment) : option error :=
  if String.eqb (Name frag) EmptyString then Some ErrNoName
  else if 0 <? default 0 (SystemEnv !! Name frag) then
    if 19 <? Priority frag
    then Some (ErrSystemPriority (Name frag) (Priority frag))
    else None
  else if 0 <? default 0 (InnerComponentEnv !! Name frag) then
    if (Priority frag <? 20) || (99 <? Priority frag)
    then Some (ErrInternalPriority (Name frag) (Priority frag))
    else None
  else
    if Priority frag <? 100
    then Some (ErrCustomPriority (Name frag) (Priority frag))
    else None.
End Validation.

(** ** Sorting and merging *)

(** The [less] closure handed to [sort.SliceStable]:
    [e.fragments[i].Priority < e.fragments[j].Priority]. *)
Definition less (a b : EnvFragment) : bool := Priority a <? Priority b.

(** [sort.SliceStable] is library code; it is modelled by the stable
    sort it is documented to be, here insertion from the right: an
    element goes in front of the first one that is not smaller. *)
Fixpoint insert_stable (x : EnvFragment) (l : list EnvFragment)
  : list EnvFragment :=
  match l with
  | [] => [x]
  | y :: l' => if less y x then y :: insert_stable x l' else x :: y :: l'
  end.

Fixpoint sort_SliceStable (l : list EnvFragment) : list EnvFragment :=
  match l with
  | [] => []
  | x :: l' => insert_stable x (sort_SliceStable l')
  end.

(** The state the merge loop updates: [e.merged] and [e.keySources]. *)
Definition merge_state : Type :=
  gmap string string * gmap string (list string).

(** The loop body [e.merged[k] = v;
    e.keySources[k] = append(e.keySources[k], frag.Name)]. *)
Definition merge_entry (name : string) (st : merge_state)
    (kv : string * string) : merge_state :=
  (<[kv.1 := kv.2]> st.1,
   <[kv.1 := default [] (st.2 !! kv.1) ++ [name]]> st.2).

(** [for k, v := range frag.Env { ... }] for the fragment at position [i]. *)
Definition merge_frag (ord : RangeOrder) (i : nat) (st : merge_state)
    (frag : EnvFragment) : merge_state :=
  foldl (merge_entry (Name frag)) st (range_of ord i (Env frag)).

(** [for _, frag := range e.fragments { ... }], from position [i] on. *)
Fixpoint merge_loop (ord : RangeOrder) (i : nat) (frags : list EnvFragment)
    (st : merge_state) : merge_state :=
  match frags with
  | [] => st
  | frag :: rest => merge_loop ord (S i) rest (merge_frag ord i st frag)
  end.

(** [func (e *EnvManager) SortAndMerge()].  [e.merged] is allocated only
    when it is [nil]; [e.keySources] is replaced by a fresh map on every
    call.  The second loop of the source reads [e.keySources[k]] into the
    blank identifier and changes nothing.  [now] is what [time.Now()]
    returns. *)
Definition SortAndMerge (ord : RangeOrder) (now : Time) (e : EnvManager)
  : EnvManager :=
  let merged0 := match merged e with None => ∅ | Some m => m end in
  let frags := sort_SliceStable (fragments e) in
  let st := merge_loop ord 0 frags (merged0, ∅) in
  {| fragments := frags;
     merged := Some st.1;
     keySources := st.2;
     sorted := true;
     ctime := now |}.

(** ** The outside world *)

(** The file system as far as [os.ReadFile], [os.Create] and
    [os.WriteFile] are concerned: the content of each file, and which
    paths can be created or truncated. *)
Record FS := mkFS {
  files : gmap string string;
  creatable : string → bool;
}.

Definition os_ReadFile (fs : FS) (path : string) : option string :=
  files fs !! path.

(** [os.Create]: the file exists and is empty afterwards. *)
Definition os_Create (fs : FS) (path : string) : option FS :=
  if creatable fs path
  then Some {| files := <[path := EmptyString]> (files fs);
               creatable := creatable fs |}
  else None.

(** Writing [text] at the end of an open file. *)
Definition Fprint (fs : FS) (path text : string) : FS :=
  {| files := <[path := default EmptyString (files fs !! path) +:+ text]>
                (files fs);
     creatable := creatable fs |}.

(** The line feed and the double quote of the format strings. *)
Definition nl : string := String (ascii_of_nat 10) EmptyString.
Definition dq : string := String (ascii_of_nat 34) EmptyString.

Definition cat (parts : list string) : string :=
  foldr String.append EmptyString parts.

(** What [yaml.Decoder.Decode] yields for one document of a stream; the
    end of the list is [io.EOF]. *)
Inductive Decoded :=
  | DocFragment (frag : EnvFragment)
  | DocError.

(** [frag.Source = fpath] *)
Definition with_source (fpath : string) (frag : EnvFragment) : EnvFragment :=
  {| Name := Name frag; Priority := Priority frag; Env := Env frag;
     Scripts := Scripts frag; Source := fpath |}.

(** The [dumpStruct] of [SaveAllYaml] and [LoadAllYaml].  [Fragments]
    is a [[]*EnvFragment]: [None] is a nil pointer, which is what a
    null entry of the sequence unmarshals to. *)
Record dumpStruct := mkDump {
  Sorted_ : bool;
  CTime : string;
  Fragments : list (option EnvFragment);
}.

(** The fragments a slice of pointers points to, when none is nil. *)
Fixpoint deref_all (ptrs : list (option EnvFragment))
  : option (list EnvFragment) :=
  match ptrs with
  | [] => Some []
  | None :: _ => None
  | Some frag :: rest =>
      match deref_all rest with
      | Some frags => Some (frag :: frags)
      | None => None
      end
  end.

(** How a call of [LoadAllYaml] ends when it does not return nil: with
    an error, or in the run-time panic of a nil pointer dereference. *)
Inductive load_failure :=
  | LoadError (err : error)
  | LoadPanic.

(** [type SearchResult struct] *)
Record SearchResult := mkResult {
  FragmentName : string;
  Key : string;
  Value : string;
}.

Section Manager.
Variables SystemEnv InnerComponentEnv : gmap string Z.
(** [t.Format(time.RFC3339)] and [time.Parse(time.RFC3339, s)] *)
Variable format_RFC3339 : Time → string.
Variable parse_RFC3339 : string → option Time.
(** [regexp.Compile] and [Regexp.MatchString] *)
Variable Regexp : Type.
Variable regexp_Compile : string → option Regexp.
Variable MatchString : Regexp → string → bool.
(** [yaml.NewDecoder(...)] with its successive [Decode] results,
    [yaml.Marshal] and [yaml.Unmarshal] *)
Variable yaml_Decoder : string → list Decoded.
Variable yaml_Marshal : dumpStruct → option string.
Variable yaml_Unmarshal : string → option dumpStruct.

(** *** FeedFile *)

(** The [for] loop of [FeedFile] over the documents still to decode;
    [frags] is [e.fragments]. *)
Fixpoint feed_documents (fpath : string) (docs : list Decoded)
    (frags : list EnvFragment) : option error * list EnvFragment :=
  match docs with
  | [] => (None, frags)
  | DocError :: _ => (Some (ErrParseYAML fpath), frags)
  | DocFragment frag :: rest =>
      let frag := with_source fpath frag in
      match validateFragment SystemEnv InnerComponentEnv frag with
      | Some err => (Some (ErrValidation (Name frag) fpath err), frags)
      | None => feed_documents fpath rest (frags ++ [frag])
      end
  end.

(** [func (e *EnvManager) FeedFile(fpath string) error] *)
Definition FeedFile (fs : FS) (fpath : string) (e : EnvManager)
  : option error * EnvManager :=
  match os_ReadFile fs fpath with
  | None => (Some (ErrReadFile fpath), e)
  | Some data =>
      let r := feed_documents fpath (yaml_Decoder data) (fragments e) in
      (r.1, {| fragments := r.2; merged := merged e;
               keySources := keySources e; sorted := sorted e;
               ctime := ctime e |})
  end.

(** *** The emitters *)

(** [for _, sc := range frag.Script { if sc.Sh == tag
    { fmt.Fprintln(f, sc.Data) } }] *)
Definition script_lines (tag : string) (scs : list Script) : string :=
  cat ((λ sc, if String.eqb (Sh sc) tag then Data sc +:+ nl
              else EmptyString) <$> scs).

(** [for k, v := range frag.Env { fmt.Fprintf(f, ...) }] with the
    format of an exported variable, [export %s=] then [%s] between
    double quotes and a line feed. *)
Definition export_lines (entries : list (string * string)) : string :=
  cat ((λ kv, "export " +:+ kv.1 +:+ "=" +:+ dq +:+ kv.2 +:+ dq +:+ nl)
         <$> entries).

(** The same loop with the PowerShell format: [$Env:%s = ] then [%s]
    between double quotes and a line feed. *)
Definition psh_lines (entries : list (string * string)) : string :=
  cat ((λ kv, "$Env:" +:+ kv.1 +:+ " = " +:+ dq +:+ kv.2 +:+ dq +:+ nl)
         <$> entries).

Definition fragment_header (name : string) : string :=
  "# --- Fragment: " +:+ name +:+ " ---" +:+ nl.

(** The fragment loop of [BuildBash]. *)
Fixpoint bash_body (ord : RangeOrder) (i : nat) (frags : list EnvFragment)
  : string :=
  match frags with
  | [] => EmptyString
  | frag :: rest =>
      fragment_header (Name frag)
      +:+ export_lines (range_of ord i (Env frag))
      +:+ script_lines "bash" (Scripts frag)
      +:+ nl
      +:+ bash_body ord (S i) rest
  end.

(** The fragment loop of [BuildZsh]. *)
Fixpoint zsh_body (ord : RangeOrder) (i : nat) (frags : list EnvFragment)
  : string :=
  match frags with
  | [] => EmptyString
  | frag :: rest =>
      (if String.eqb (Name frag) EmptyString then EmptyString
       else fragment_header (Name frag))
      +:+ export_lines (range_of ord i (Env frag))
      +:+ script_lines "zsh" (Scripts frag)
      +:+ nl
      +:+ zsh_body ord (S i) rest
  end.

(** The fragment loop of [BuildPsh]. *)
Fixpoint psh_body (ord : RangeOrder) (i : nat) (frags : list EnvFragment)
  : string :=
  match frags with
  | [] => EmptyString
  | frag :: rest =>
      (if String.eqb (Name frag) EmptyString then EmptyString
       else fragment_header (Name frag))
      +:+ psh_lines (range_of ord i (Env frag))
      +:+ script_lines "pw" (Scripts frag)
      +:+ nl
      +:+ psh_body ord (S i) rest
  end.

(** [func (e *EnvManager) BuildBash(dst string) error] *)
Definition BuildBash (ord : RangeOrder) (e : EnvManager) (fs : FS)
    (dst : string) : option error * FS :=
  if negb (sorted e) then (Some ErrNotBuilt, fs)
  else match os_Create fs dst with
       | None => (Some (ErrCreate dst), fs)
       | Some fs =>
           let ts := format_RFC3339 (ctime e) in
           (None,
            Fprint fs dst
              ("# Env generated at " +:+ ts +:+ nl
               +:+ "export ENV_CTIME=" +:+ dq +:+ ts +:+ dq +:+ nl +:+ nl
               +:+ bash_body ord 0 (fragments e)))
       end.

(** [func (e *EnvManager) BuildZsh(dst string) error] *)
Definition BuildZsh (ord : RangeOrder) (e : EnvManager) (fs : FS)
    (dst : string) : option error * FS :=
  if negb (sorted e) then (Some ErrNotBuilt, fs)
  else match os_Create fs dst with
       | None => (Some (ErrCreate dst), fs)
       | Some fs =>
           let ts := format_RFC3339 (ctime e) in
           (None,
            Fprint fs dst
              ("# Env generated at " +:+ ts +:+ nl
               +:+ "export ENV_CTIME=" +:+ dq +:+ ts +:+ dq +:+ nl
               +:+ zsh_body ord 0 (fragments e)))
       end.

(** [func (e *EnvManager) BuildPsh(dst string) error] *)
Definition BuildPsh (ord : RangeOrder) (e : EnvManager) (fs : FS)
    (dst : string) : option error * FS :=
  if negb (sorted e) then (Some ErrNotBuilt, fs)
  else match os_Create fs dst with
       | None => (Some (ErrCreate dst), fs)
       | Some fs =>
           let ts := format_RFC3339 (ctime e) in
           (None,
            Fprint fs dst
              ("$Env:ENV_CTIME = " +:+ dq +:+ ts +:+ dq +:+ nl
               +:+ psh_body ord 0 (fragments e)))
       end.

(** [func (e *EnvManager) WriteMeta(dst string) error] *)
Definition WriteMeta (e : EnvManager) (fs : FS) (dst : string)
  : option error * FS :=
  if negb (sorted e) then (Some ErrNotGen, fs)
  else match os_Create fs dst with
       | None => (Some (ErrCreate dst), fs)
       | Some fs => (None, Fprint fs dst (format_RFC3339 (ctime e)))
       end.

(** *** Search *)

(** The two inner loops of [Search] for one fragment, whose [Env] is
    walked in the order [entries]. *)
Definition search_fragment (re : Regexp) (entries : list (string * string))
    (frag : EnvFragment) : list SearchResult :=
  ((λ kv, {| FragmentName := Name frag; Key := kv.1; Value := kv.2 |})
     <$> List.filter (λ kv, MatchString re kv.1 || MatchString re kv.2)
           entries)
  ++
  ((λ sc, {| FragmentName := Name frag;
             Key := "script[" +:+ Sh sc +:+ "]";
             Value := Data sc |})
     <$> List.filter (λ sc, MatchString re (Data sc)) (Scripts frag)).

Fixpoint search_loop (re : Regexp) (ord : RangeOrder) (i : nat)
    (frags : list EnvFragment) : list SearchResult :=
  match frags with
  | [] => []
  | frag :: rest =>
      search_fragment re (range_of ord i (Env frag)) frag
      ++ search_loop re ord (S i) rest
  end.

(** [func (e *EnvManager) Search(pattern string) ([]SearchResult, error)] *)
Definition Search (ord : RangeOrder) (e : EnvManager) (pattern : string)
  : error + list SearchResult :=
  if negb (sorted e) then inl ErrNotBuilt
  else match regexp_Compile pattern with
       | None => inl (ErrInvalidPattern pattern)
       | Some re => inr (search_loop re ord 0 (fragments e))
       end.

(** *** Saving and loading the whole state *)

(** [func (e *EnvManager) SaveAllYaml(path string) error] *)
Definition SaveAllYaml (e : EnvManager) (fs : FS) (path : string)
  : option error * FS :=
  let d := {| Sorted_ := sorted e;
              CTime := format_RFC3339 (ctime e);
              Fragments := Some <$> fragments e |} in
  match yaml_Marshal d with
  | None => (Some ErrMarshal, fs)
  | Some data =>
      match os_Create fs path with
      | None => (Some (ErrCreate path), fs)
      | Some fs => (None, Fprint fs path data)
      end
  end.

(** [func (e *EnvManager) LoadAllYaml(path string) error].  The slice
    of the document becomes [e.fragments] as it is, and [SortAndMerge]
    then reads [frag.Env] of every entry (and [Priority] when it sorts):
    a nil entry makes the call panic.  Nothing of the manager can be
    observed after a panic; the second component is then the manager as
    the call found it. *)
Definition LoadAllYaml (ord : RangeOrder) (now : Time) (fs : FS)
    (path : string) (e : EnvManager) : option load_failure * EnvManager :=
  match os_ReadFile fs path with
  | None => (Some (LoadError (ErrReadFile path)), e)
  | Some data =>
      match yaml_Unmarshal data with
      | None => (Some (LoadError ErrUnmarshal), e)
      | Some d =>
          let t := if String.eqb (CTime d) EmptyString then ctime e
                   else default (ctime e) (parse_RFC3339 (CTime d)) in
          match deref_all (Fragments d) with
          | None => (Some LoadPanic, e)
          | Some frags =>
              (None,
               SortAndMerge ord now
                 {| fragments := frags; merged := merged e;
                    keySources := keySources e; sorted := Sorted_ d;
                    ctime := t |})
          end
      end
  end.

(** *** Sequences of calls *)

(** A call of one of the methods of a manager, with what the outside
    world answers during the call.  ([FeedDir] is a sequence of
    [FeedFile] calls that stops at the first error.) *)
Inductive Call :=
  | CallFeedFile (fpath : string)
  | CallSortAndMerge (ord : RangeOrder) (now : Time)
  | CallBuildBash (ord : RangeOrder) (dst : string)
  | CallBuildZsh (ord : RangeOrder) (dst : string)
  | CallBuildPsh (ord : RangeOrder) (dst : string)
  | CallSearch (ord : RangeOrder) (pattern : string)
  | CallWriteMeta (dst : string)
  | CallSaveAllYaml (path : string)
  | CallLoadAllYaml (ord : RangeOrder) (now : Time) (path : string).

(** One call: the manager and file system after it, and whether the
    body of [SortAndMerge] was executed to its end during it.  (A call
    that panics leaves no state; [run] below stops in front of it.) *)
Definition step (st : EnvManager * FS) (c : Call)
  : EnvManager * FS * bool :=
  let '(e, fs) := st in
  match c with
  | CallFeedFile fpath => ((FeedFile fs fpath e).2, fs, false)
  | CallSortAndMerge ord now => (SortAndMerge ord now e, fs, true)
  | CallBuildBash ord dst => (e, (BuildBash ord e fs dst).2, false)
  | CallBuildZsh ord dst => (e, (BuildZsh ord e fs dst).2, false)
  | CallBuildPsh ord dst => (e, (BuildPsh ord e fs dst).2, false)
  | CallSearch _ _ => (e, fs, false)
  | CallWriteMeta dst => (e, (WriteMeta e fs dst).2, false)
  | CallSaveAllYaml path => (e, (SaveAllYaml e fs path).2, false)
  | CallLoadAllYaml ord now path =>
      let r := LoadAllYaml ord now fs path e in
      (r.2, fs, match r.1 with None => true | Some _ => false end)
  end.

(** Whether a call ends in a panic: the program stops there. *)
Definition call_panics (st : EnvManager * FS) (c : Call) : bool :=
  match c with
  | CallLoadAllYaml ord now path =>
      match (LoadAllYaml ord now st.2 path st.1).1 with
      | Some LoadPanic => true
      | _ => false
      end
  | _ => false
  end.

(** A sequence of calls, as far as the program gets; the flag tells
    whether a merge ever ran. *)
Fixpoint run (cs : list Call) (st : EnvManager * FS) (ran : bool)
  : EnvManager * FS * bool :=
  match cs with
  | [] => (st, ran)
  | c :: cs' =>
      if call_panics st c then (st, ran)
      else let r := step st c in run cs' r.1 (ran || r.2)
  end.
End Manager.

Arguments search_fragment {Regexp} MatchString re entries frag.
Arguments search_loop {Regexp} MatchString re ord i frags.
Arguments Search {Regexp} regexp_Compile MatchString ord e pattern.

(** ** Vocabulary of the properties *)

(** Ascending priority. *)
Definition prio_le (x y : EnvFragment) : Prop := Priority x ≤ Priority y.

(** The fragments of one priority, in the order of the list. *)
Definition with_priority (p : Z) (l : list EnvFragment) : list EnvFragment :=
  List.filter (λ x, Priority x =? p) l.

(** Whether a fragment defines the key [k]. *)
Definition defines (k : string) (frag : EnvFragment) : bool :=
  match Env frag !! k with Some _ => true | None => false end.

(** The value of [k] in the last fragment of the list that defines it. *)
Fixpoint last_value (k : string) (frags : list EnvFragment) : option string :=
  match frags with
  | [] => None
  | frag :: rest =>
      match last_value k rest with
      | Some v => Some v
      | None => Env frag !! k
      end
  end.

(** The names of the fragments that define [k], in the order of the list. *)
Definition contributors (k : string) (frags : list EnvFragment) : list string :=
  Name <$> List.filter (defines k) frags.

(** [x] occurs somewhere in front of [y] in [l]. *)
Definition occurs_before (x y : EnvFragment) (l : list EnvFragment) : Prop :=
  ∃ l1 l2 l3, l = l1 ++ x :: l2 ++ y :: l3.

(** The entries of a fragment's [Env] a compiled pattern matches, and
    the number of results [Search] owes to one fragment. *)
Definition entry_matches {Regexp : Type} (MatchString : Regexp → string → bool)
    (re : Regexp) (kv : string * string) : bool :=
  MatchString re kv.1 || MatchString re kv.2.

Definition hits {Regexp : Type} (MatchString : Regexp → string → bool)
    (re : Regexp) (frag : EnvFragment) : nat :=
  (List.length
     (List.filter (entry_matches MatchString re) (map_to_list (Env frag)))
   + List.length
       (List.filter (λ sc, MatchString re (Data sc)) (Scripts frag)))%nat.

(** ** Concrete inputs *)

(** The three fragments of the package's example program. *)
Definition systemFrag : EnvFragment :=
  {| Name := "system_base";
     Priority := 10;
     Env := {[ "PATH" := "/usr/local/bin:/usr/bin"; "LANG" := "en_US.UTF-8" ]};
     Scripts :=
       [ {| Sh := "bash";
            Data := "echo " +:+ dq +:+ "System base script executed" +:+ dq |};
         {| Sh := "pwsh";
            Data := "Write-Host " +:+ dq +:+ "System base PowerShell script"
                    +:+ dq |} ];
     Source := "system.yaml" |}.

Definition innerFrag : EnvFragment :=
  {| Name := "internal_service";
     Priority := 30;
     Env := {[ "LANG" := "zh_CN.UTF-8"; "APP_HOME" := "/opt/app" ]};
     Scripts :=
       [ {| Sh := "bash";
            Data := "if [ -z " +:+ dq +:+ "$APP_URL" +:+ dq +:+ " ]; then" +:+ nl
                    +:+ "  export APP_URL=" +:+ dq +:+ "http://localhost:8080"
                    +:+ dq +:+ nl +:+ "fi" |};
         {| Sh := "zsh";
            Data := "if [[ -z " +:+ dq +:+ "$APP_URL" +:+ dq +:+ " ]]; then" +:+ nl
                    +:+ "  export APP_URL=" +:+ dq +:+ "http://localhost:8080"
                    +:+ dq +:+ nl +:+ "fi" |} ];
     Source := "internal.yaml" |}.

Definition customFrag : EnvFragment :=
  {| Name := "user_service";
     Priority := 150;
     Env := {[ "APP_HOME" := "/home/user/app"; "DEBUG" := "true" ]};
     Scripts :=
       [ {| Sh := "bash";
            Data := "echo " +:+ dq +:+ "User service Bash script" +:+ dq |};
         {| Sh := "pwsh";
            Data := "Write-Host " +:+ dq +:+ "User service PowerShell script"
                    +:+ dq |} ];
     Source := "user.yaml" |}.

(** The fragment that [ExampleEnvYaml] writes, as the YAML library
    decodes it; [tag] is the shell of its third script, ["pwsh"] in the
    sample. *)
Definition sampleService (tag : string) : EnvFragment :=
  {| Name := "sample_service";
     Priority := 100;
     Env := {[ "SERVICE_PORT" := "8080"; "SERVICE_HOST" := "0.0.0.0" ]};
     Scripts :=
       [ {| Sh := "bash";
            Data := "if [ -z " +:+ dq +:+ "$SERVICE_URL" +:+ dq +:+ " ]; then" +:+ nl
                    +:+ "  export SERVICE_URL=" +:+ dq
                    +:+ "http://$SERVICE_HOST:$SERVICE_PORT" +:+ dq +:+ nl
                    +:+ "  echo " +:+ dq
                    +:+ "Bash: Service URL set to $SERVICE_URL" +:+ dq +:+ nl
                    +:+ "fi" +:+ nl |};
         {| Sh := "zsh";
            Data := "if [[ -z " +:+ dq +:+ "$SERVICE_URL" +:+ dq +:+ " ]]; then" +:+ nl
                    +:+ "  export SERVICE_URL=" +:+ dq
                    +:+ "http://$SERVICE_HOST:$SERVICE_PORT" +:+ dq +:+ nl
                    +:+ "  echo " +:+ dq
                    +:+ "Zsh: Service URL set to $SERVICE_URL" +:+ dq +:+ nl
                    +:+ "fi" +:+ nl |};
         {| Sh := tag;
            Data := "if (-not $env:SERVICE_URL) {" +:+ nl
                    +:+ "  $env:SERVICE_URL = " +:+ dq
                    +:+ "http://$env:SERVICE_HOST:$env:SERVICE_PORT" +:+ dq +:+ nl
                    +:+ "  Write-Host " +:+ dq
                    +:+ "PowerShell: Service URL set to $env:SERVICE_URL"
                    +:+ dq +:+ nl
                    +:+ "}" +:+ nl |} ];
     Source := "sample.yaml" |}.

(** Membership tables a program may install: one system component and
    one internal component. *)
Definition exampleSystemEnv : gmap string Z := {[ "system_base" := 1 ]}.
Definition exampleInnerEnv : gmap string Z := {[ "internal_service" := 1 ]}.

(** A file system where every path can be written, holding [content]. *)
Definition writableFS (content : gmap string string) : FS :=
  {| files := content; creatable := λ _, true |}.

(** A pattern without metacharacters matches the strings it occurs in:
    the instance of the [regexp] interface used on concrete inputs. *)
Definition literal_Compile (pattern : string) : option string := Some pattern.
Definition literal_MatchString (re s : string) : bool :=
  match String.index 0 re s with Some _ => true | None => false end.

(** The manager of the example program: the three fragments appended in
    an order that is not the priority order. *)
Definition exampleManager : EnvManager :=
  {| fragments := [customFrag; innerFrag; systemFrag]; merged := None;
     keySources := ∅; sorted := false; ctime := 0 |}.

(** The reload scenario: [system.yaml] holds the one document
    [systemFrag], [state.yaml] is a state saved by a manager whose only
    fragment was [customFrag]; the two functions are what the YAML
    library answers on these two files. *)
Definition scenarioFS : FS :=
  writableFS {[ "system.yaml" := "name: system_base";
                "state.yaml" := "fragments: [name: user_service]" ]}.

Definition scenario_Decoder (data : string) : list Decoded :=
  if String.eqb data "name: system_base" then [DocFragment systemFrag]
  else [DocError].

Definition scenario_Unmarshal (data : string) : option dumpStruct :=
  if String.eqb data "fragments: [name: user_service]"
  then Some {| Sorted_ := true; CTime := "2024-05-01T10:00:00Z";
               Fragments := [Some customFrag] |}
  else None.

(** The document [SaveAllYaml] hands to the YAML library. *)
Definition dump_of (format_RFC3339 : Time → string) (e : EnvManager)
  : dumpStruct :=
  {| Sorted_ := sorted e; CTime := format_RFC3339 (ctime e);
     Fragments := Some <$> fragments e |}.

(** The manager of the reload scenario: fed [system.yaml], merged, then
    loaded from [state.yaml]. *)
Definition reloadedManager (parse_RFC3339 : string → option Time)
    (ord1 ord2 : RangeOrder) (now1 now2 : Time) : EnvManager :=
  (LoadAllYaml parse_RFC3339 scenario_Unmarshal ord2 now2 scenarioFS
     "state.yaml"
     (SortAndMerge ord1 now1
        (FeedFile exampleSystemEnv exampleInnerEnv scenario_Decoder
           scenarioFS "system.yaml" newManager).2)).2.

(** A document sequence whose second document breaks the custom tier's
    bound: what [FeedFile] meets in the partial-load scenario. *)
Definition lowPriorityFrag : EnvFragment :=
  {| Name := "user_service"; Priority := 5; Env := {[ "DEBUG" := "false" ]};
     Scripts := []; Source := EmptyString |}.

Definition partial_Decoder (data : string) : list Decoded :=
  [ DocFragment customFrag; DocFragment lowPriorityFrag;
    DocFragment innerFrag ].

(** ** Loading a directory, reading the time stamp back *)

(** [os.DirEntry], as far as [FeedDir] looks at it. *)
Record DirEntry := mkDirEntry {
  entry_Name : string;
  entry_IsDir : bool;
}.

(** [strings.HasSuffix(s, suffix)]:
    [len(s) >= len(suffix) && s[len(s)-len(suffix):] == suffix]. *)
Definition HasSuffix (s suffix : string) : bool :=
  (String.length suffix <=? String.length s)%nat
  && String.eqb
       (substring (String.length s - String.length suffix)
          (String.length suffix) s)
       suffix.

(** What [ReadEnvTime] reports when it fails: the error of
    [os.ReadFile], or "failed to parse time: %w". *)
Inductive time_error :=
  | TimeReadError (path : string)
  | TimeParseError (text : string).

Section Directory.
Variables SystemEnv InnerComponentEnv : gmap string Z.
Variable yaml_Decoder : string → list Decoded.
(** [os.ReadDir], [filepath.Join], [strings.TrimSpace] and
    [time.Parse(time.RFC3339, _)] *)
Variable os_ReadDir : string → option (list DirEntry).
Variable filepath_Join : string → string → string.
Variable strings_TrimSpace : string → string.
Variable parse_RFC3339 : string → option Time.

(** Whether the loop of [FeedDir] passes over a directory entry. *)
Definition skipped (file : DirEntry) : bool :=
  entry_IsDir file
  || (negb (HasSuffix (entry_Name file) ".yaml")
      && negb (HasSuffix (entry_Name file) ".yml")).

(** The [for _, file := range files] loop of [FeedDir]. *)
Fixpoint feed_entries (fs : FS) (dir : string) (entries : list DirEntry)
    (e : EnvManager) : option error * EnvManager :=
  match entries with
  | [] => (None, e)
  | file :: rest =>
      if entry_IsDir file then feed_entries fs dir rest e
      else if negb (HasSuffix (entry_Name file) ".yaml")
              && negb (HasSuffix (entry_Name file) ".yml")
      then feed_entries fs dir rest e
      else
        let r := FeedFile SystemEnv InnerComponentEnv yaml_Decoder fs
                   (filepath_Join dir (entry_Name file)) e in
        match r.1 with
        | Some err => (Some err, r.2)
        | None => feed_entries fs dir rest r.2
        end
  end.

(** [func (e *EnvManager) FeedDir(dir string) error] *)
Definition FeedDir (fs : FS) (dir : string) (e : EnvManager)
  : option error * EnvManager :=
  match os_ReadDir dir with
  | None => (Some (ErrReadFile dir), e)
  | Some entries => feed_entries fs dir entries e
  end.

(** [func ReadEnvTime(dst string) (time.Time, error)] *)
Definition ReadEnvTime (fs : FS) (dst : string) : time_error + Time :=
  match os_ReadFile fs dst with
  | None => inl (TimeReadError dst)
  | Some data =>
      match parse_RFC3339 (strings_TrimSpace data) with
      | None => inl (TimeParseError (strings_TrimSpace data))
      | Some t => inr t
      end
  end.
End Directory.

(** ** Vocabulary of the further properties *)

(** The priorities [validateFragment] lets through for each tier. *)
Definition accepted (t : tier) (p : Z) : Prop :=
  match t with
  | System => p ≤ 19
  | Internal => 20 ≤ p ≤ 99
  | Custom => 100 ≤ p
  end.

(** A fragment the validation lets through. *)
Definition valid (SystemEnv InnerComponentEnv : gmap string Z)
    (frag : EnvFragment) : Prop :=
  validateFragment SystemEnv InnerComponentEnv frag = None.

(** The fragments of the documents [FeedFile] (and, file after file,
    [FeedDir]) would store from [docs]: those in front of the first
    document that fails to parse or to validate. *)
Fixpoint accepted_prefix (SystemEnv InnerComponentEnv : gmap string Z)
    (fpath : string) (docs : list Decoded) : list EnvFragment :=
  match docs with
  | [] => []
  | DocError :: _ => []
  | DocFragment frag :: rest =>
      match validateFragment SystemEnv InnerComponentEnv
              (with_source fpath frag) with
      | Some _ => []
      | None => with_source fpath frag
                :: accepted_prefix SystemEnv InnerComponentEnv fpath rest
      end
  end.

(** A manager with the same state and a longer fragment list: what a
    successful [FeedFile] leaves. *)
Definition with_more (added : list EnvFragment) (e : EnvManager)
  : EnvManager :=
  {| fragments := fragments e ++ added; merged := merged e;
     keySources := keySources e; sorted := sorted e; ctime := ctime e |}.

(** An invalid fragment for the load scenarios: no name, and a priority
    no tier of a custom name accepts. *)
Definition namelessFrag : EnvFragment :=
  {| Name := EmptyString; Priority := 7; Env := {[ "DEBUG" := "maybe" ]};
     Scripts := [ {| Sh := "bash"; Data := "true" |} ];
     Source := EmptyString |}.

(** The tiers in the order of their priority ranges. *)
Definition tier_rank (t : tier) : nat :=
  match t with System => 0 | Internal => 1 | Custom => 2 end.

(** Feeding files one after the other, stopping at the first error. *)
Fixpoint feed_files (SystemEnv InnerComponentEnv : gmap string Z)
    (yaml_Decoder : string → list Decoded) (fs : FS) (paths : list string)
    (e : EnvManager) : option error * EnvManager :=
  match paths with
  | [] => (None, e)
  | fpath :: rest =>
      let r := FeedFile SystemEnv InnerComponentEnv yaml_Decoder fs fpath e in
      match r.1 with
      | Some err => (Some err, r.2)
      | None =>
          feed_files SystemEnv InnerComponentEnv yaml_Decoder fs rest r.2
      end
  end.

(** The names of the entries of a directory that are not directories
    and end in [.yaml] or [.yml], in the order of the listing. *)
Definition yaml_files (entries : list DirEntry) : list string :=
  entry_Name <$> List.filter (λ file, negb (skipped file)) entries.

(** A directory of the example program: two fragment files, a note and
    a sub-directory. *)
Definition exampleListing : list DirEntry :=
  [ {| entry_Name := "10-system.yaml"; entry_IsDir := false |};
    {| entry_Name := "README.md"; entry_IsDir := false |};
    {| entry_Name := "extra.yaml"; entry_IsDir := true |};
    {| entry_Name := "90-user.yml"; entry_IsDir := false |} ].

(** [filepath.Join] on a clean directory name and a file name. *)
Definition join_path (dir name : string) : string := dir +:+ "/" +:+ name.

(** The directory scenario: the first fragment file holds [systemFrag],
    the second one does not parse. *)
Definition directoryFS : FS :=
  writableFS {[ "env/10-system.yaml" := "name: system_base";
                "env/90-user.yml" := "name: [" ]}.

(** The results [Search] owes to the scripts of a fragment, in the
    order of the scripts, and to the entries of its [Env], in the order
    [map_to_list] gives them. *)
Definition script_results {Regexp : Type}
    (MatchString : Regexp → string → bool) (re : Regexp)
    (frag : EnvFragment) : list SearchResult :=
  (λ sc, {| FragmentName := Name frag; Key := "script[" +:+ Sh sc +:+ "]";
            Value := Data sc |})
    <$> List.filter (λ sc, MatchString re (Data sc)) (Scripts frag).

Definition env_results {Regexp : Type}
    (MatchString : Regexp → string → bool) (re : Regexp)
    (frag : EnvFragment) : list SearchResult :=
  (λ kv, {| FragmentName := Name frag; Key := kv.1; Value := kv.2 |})
    <$> List.filter (entry_matches MatchString re) (map_to_list (Env frag)).

(** Calls other than [LoadAllYaml]. *)
Definition no_load (c : Call) : bool :=
  match c with CallLoadAllYaml _ _ _ => false | _ => true end.

(** Every stored fragment is valid; every key of [merged] is defined by
    a stored fragment; every key with a chain has a value. *)
Definition consistent_manager (SystemEnv InnerComponentEnv : gmap string Z)
    (e : EnvManager) : Prop :=
  Forall (valid SystemEnv InnerComponentEnv) (fragments e)
  ∧ (∀ k, is_Some (merged_map e !! k) →
          Exists (λ f, is_Some (Env f !! k)) (fragments e))
  ∧ (∀ k, is_Some (keySources e !! k) → is_Some (merged_map e !! k)).

(** Tables with an entry that is not positive, and a name in both. *)
Definition legacySystemEnv : gmap string Z :=
  {[ "legacy_base" := 0; "shared" := 2 ]}.
Definition legacyInnerEnv : gmap string Z := {[ "shared" := 5 ]}.

(** * Properties *)

(** ** The stable sort *)

Section Sorting.
Implicit Types (x y : EnvFragment) (l : list EnvFragment).

Lemma less_spec x y : less x y = true ↔ Priority x < Priority y.
Proof. unfold less. apply Z.ltb_lt. Qed.

Lemma less_false x y : less x y = false ↔ Priority y ≤ Priority x.
Proof. unfold less. rewrite Z.ltb_ge. reflexivity. Qed.

Lemma insert_stable_perm x l : insert_stable x l ≡ₚ x :: l.
Proof.
  induction l as [|y l IH]; simpl; [done|].
  destruct (less y x); [|done].
  rewrite IH. apply Permutation_swap.
Qed.

Lemma sort_SliceStable_perm l : sort_SliceStable l ≡ₚ l.
Proof.
  induction l as [|x l IH]; simpl; [done|].
  rewrite insert_stable_perm. by f_equiv.
Qed.

Lemma insert_stable_hd x l :
  HdRel prio_le x l → insert_stable x l = x :: l.
Proof.
  destruct 1 as [|y l Hxy]; simpl; [done|].
  replace (less y x) with false; [done|].
  symmetry. by apply less_false.
Qed.

Lemma insert_stable_sorted x l :
  Sorted prio_le l → Sorted prio_le (insert_stable x l).
Proof.
  induction 1 as [|y l Hl IH Hhd]; simpl.
  - by repeat constructor.
  - destruct (less y x) eqn:Hyx.
    + constructor; [done|].
      apply less_spec in Hyx.
      destruct Hhd as [|z l' Hyz]; simpl.
      * constructor. unfold prio_le. lia.
      * destruct (less z x); constructor; unfold prio_le in *; lia.
    + apply less_false in Hyx.
      constructor; [by constructor|]. by constructor.
Qed.

Lemma sort_SliceStable_sorted l : Sorted prio_le (sort_SliceStable l).
Proof.
  induction l as [|x l IH]; simpl; [constructor|].
  by apply insert_stable_sorted.
Qed.

(** Sorting a list that is sorted already changes nothing. *)
Lemma sort_SliceStable_id l :
  Sorted prio_le l → sort_SliceStable l = l.
Proof.
  induction 1 as [|x l Hl IH Hhd]; simpl; [done|].
  rewrite IH. by apply insert_stable_hd.
Qed.

Lemma sort_SliceStable_idemp l :
  sort_SliceStable (sort_SliceStable l) = sort_SliceStable l.
Proof. apply sort_SliceStable_id, sort_SliceStable_sorted. Qed.

Lemma insert_stable_with_priority p x l :
  with_priority p (insert_stable x l) = with_priority p (x :: l).
Proof.
  induction l as [|y l IH]; [done|].
  simpl. destruct (less y x) eqn:Hyx; [|done].
  apply less_spec in Hyx. simpl in *. rewrite IH.
  destruct (Z.eqb_spec (Priority x) p), (Z.eqb_spec (Priority y) p);
    try done; lia.
Qed.

Lemma sort_SliceStable_with_priority p l :
  with_priority p (sort_SliceStable l) = with_priority p l.
Proof.
  induction l as [|x l IH]; [done|].
  simpl. rewrite insert_stable_with_priority.
  unfold with_priority in *. simpl. by rewrite IH.
Qed.
End Sorting.

(** ** The merge loop *)

Section Merging.
Implicit Types (k name : string) (frags : list EnvFragment).
Implicit Types (m : gmap string string) (ks : gmap string (list string)).
Implicit Types (entries : list (string * string)).

(** One fragment, whatever the order of its entries: every key of the
    fragment gets the fragment's value and one more contributor, every
    other key is left alone. *)
Lemma merge_entries_lookup name entries m ks k :
  NoDup entries.*1 →
  let st := foldl (merge_entry name) (m, ks) entries in
  st.1 !! k = match (list_to_map entries : gmap string string) !! k with
              | Some v => Some v
              | None => m !! k
              end
  ∧ st.2 !! k = match (list_to_map entries : gmap string string) !! k with
                | Some _ => Some (default [] (ks !! k) ++ [name])
                | None => ks !! k
                end.
Proof.
  revert m ks. induction entries as [|[k0 v0] entries IH]; intros m ks Hnd.
  { simpl. by rewrite lookup_empty. }
  apply NoDup_cons in Hnd as [Hk0 Hnd]. simpl in Hk0.
  cbn [foldl]. unfold merge_entry at 2 4. cbn [fst snd].
  destruct (IH (<[k0:=v0]> m)
               (<[k0:=default [] (ks !! k0) ++ [name]]> ks) Hnd)
    as [IH1 IH2].
  cbn zeta in *. rewrite IH1, IH2. clear IH IH1 IH2.
  cbn [list_to_map foldr uncurry]. simpl.
  destruct (decide (k = k0)) as [->|Hne].
  - rewrite lookup_insert_eq.
    rewrite (not_elem_of_list_to_map_1 entries k0 Hk0).
    by rewrite !lookup_insert_eq.
  - rewrite !(lookup_insert_ne _ k0 k) by done.
    by destruct (list_to_map entries !! k).
Qed.

Lemma range_of_to_map (ord : RangeOrder) i m :
  NoDup (range_of ord i m).*1 ∧ list_to_map (range_of ord i m) = m.
Proof.
  pose proof (range_perm ord i m) as Hp.
  assert (NoDup (range_of ord i m).*1) as Hnd.
  { rewrite Hp. apply NoDup_fst_map_to_list. }
  split; [done|].
  rewrite (list_to_map_proper _ _ Hnd Hp). apply list_to_map_to_list.
Qed.

Lemma merge_frag_merged ord i m ks frag k :
  (merge_frag ord i (m, ks) frag).1 !! k
  = match Env frag !! k with Some v => Some v | None => m !! k end.
Proof.
  destruct (range_of_to_map ord i (Env frag)) as [Hnd Heq].
  destruct (merge_entries_lookup (Name frag) _ m ks k Hnd) as [H _].
  unfold merge_frag. cbn zeta in H. by rewrite H, Heq.
Qed.

Lemma merge_frag_keySources ord i m ks frag k :
  (merge_frag ord i (m, ks) frag).2 !! k
  = if defines k frag then Some (default [] (ks !! k) ++ [Name frag])
    else ks !! k.
Proof.
  destruct (range_of_to_map ord i (Env frag)) as [Hnd Heq].
  destruct (merge_entries_lookup (Name frag) _ m ks k Hnd) as [_ H].
  unfold merge_frag, defines. cbn zeta in H. rewrite H, Heq.
  by destruct (Env frag !! k).
Qed.

(** The whole loop: the last fragment that defines a key wins, and
    the key's chain grows by the names of all fragments defining it. *)
Lemma merge_loop_merged ord i frags m ks k :
  (merge_loop ord i frags (m, ks)).1 !! k
  = match last_value k frags with Some v => Some v | None => m !! k end.
Proof.
  revert i m ks. induction frags as [|frag rest IH]; intros i m ks; [done|].
  cbn [merge_loop last_value].
  destruct (merge_frag ord i (m, ks) frag) as [m' ks'] eqn:Hst.
  rewrite IH. destruct (last_value k rest); [done|].
  change m' with (m', ks').1. rewrite <- Hst. apply merge_frag_merged.
Qed.

Lemma merge_loop_keySources ord i frags m ks k :
  (merge_loop ord i frags (m, ks)).2 !! k
  = match contributors k frags with
    | [] => ks !! k
    | names => Some (default [] (ks !! k) ++ names)
    end.
Proof.
  revert i m ks. induction frags as [|frag rest IH]; intros i m ks; [done|].
  cbn [merge_loop].
  destruct (merge_frag ord i (m, ks) frag) as [m' ks'] eqn:Hst.
  rewrite IH.
  assert (ks' !! k = if defines k frag
                     then Some (default [] (ks !! k) ++ [Name frag])
                     else ks !! k) as ->.
  { change ks' with (m', ks').2. rewrite <- Hst.
    apply merge_frag_keySources. }
  unfold contributors. cbn [List.filter].
  destruct (defines k frag); [|done].
  rewrite fmap_cons. simpl.
  destruct (Name <$> List.filter (defines k) rest) as [|n ns]; [done|].
  by rewrite <- app_assoc.
Qed.

Lemma last_value_app k l1 l2 :
  last_value k (l1 ++ l2)
  = match last_value k l2 with
    | Some v => Some v
    | None => last_value k l1
    end.
Proof.
  induction l1 as [|f l1 IH]; simpl.
  - by destruct (last_value k l2).
  - rewrite IH. by destruct (last_value k l2).
Qed.

Lemma last_value_None k frags :
  last_value k frags = None ↔ Forall (λ f, Env f !! k = None) frags.
Proof.
  induction frags as [|f rest IH]; simpl.
  - split; [constructor|done].
  - rewrite Forall_cons, <- IH.
    destruct (last_value k rest).
    + split; [done|by intros [_ ?]].
    + split; [done|by intros [? _]].
Qed.

Lemma contributors_app k l1 l2 :
  contributors k (l1 ++ l2) = contributors k l1 ++ contributors k l2.
Proof. unfold contributors. by rewrite List.filter_app, fmap_app. Qed.

Lemma contributors_nil k frags :
  Forall (λ f, Env f !! k = None) frags → contributors k frags = [].
Proof.
  induction 1 as [|f rest Hf _ IH]; [done|].
  unfold contributors in *. simpl. unfold defines at 1. by rewrite Hf.
Qed.

(** A key some fragment defines has a last fragment defining it. *)
Lemma last_definer k frags :
  Exists (λ f, is_Some (Env f !! k)) frags →
  ∃ l1 f l2 v, frags = l1 ++ f :: l2 ∧ Env f !! k = Some v
               ∧ Forall (λ g, Env g !! k = None) l2.
Proof.
  induction frags as [|f rest IH]; intros Hex; [by inversion Hex|].
  destruct (last_value k rest) as [v|] eqn:Hlast.
  - destruct IH as (l1 & g & l2 & w & -> & Hg & Hl2).
    { apply Exists_exists.
      destruct (decide (Exists (λ f, is_Some (Env f !! k)) rest))
        as [He|Hne]; [by apply Exists_exists in He|].
      apply not_Exists_Forall in Hne; [|apply _].
      assert (last_value k rest = None); [|congruence].
      apply last_value_None. eapply Forall_impl; [exact Hne|].
      simpl. intros x Hx. by apply eq_None_not_Some. }
    by exists (f :: l1), g, l2, w.
  - apply last_value_None in Hlast.
    apply Exists_cons in Hex as [[v Hv]|Hex].
    + by exists [], f, rest, v.
    + apply Exists_exists in Hex as (g & Hg & [v Hv]).
      rewrite Forall_forall in Hlast. apply list_elem_of_In in Hg.
      rewrite (Hlast g) in Hv; [done|]. by apply list_elem_of_In.
Qed.
End Merging.

(** ** SortAndMerge *)

Section SortAndMergeFacts.
Variables (ord : RangeOrder) (now : Time) (e : EnvManager).

Lemma SortAndMerge_fragments :
  fragments (SortAndMerge ord now e) = sort_SliceStable (fragments e).
Proof. done. Qed.

(** After a merge [merged] is a map, never nil. *)
Lemma SortAndMerge_merged_Some :
  merged (SortAndMerge ord now e)
  = Some (merged_map (SortAndMerge ord now e)).
Proof. done. Qed.

(** What a merge leaves in [merged]: the winning value of every key a
    fragment defines, and whatever the map held before for the rest. *)
Lemma SortAndMerge_merged k :
  merged_map (SortAndMerge ord now e) !! k
  = match last_value k (sort_SliceStable (fragments e)) with
    | Some v => Some v
    | None => merged_map e !! k
    end.
Proof.
  unfold SortAndMerge, merged_map. cbn -[merge_loop sort_SliceStable].
  rewrite merge_loop_merged. by destruct (merged e).
Qed.

(** What a merge leaves in [keySources]: the chain of every key a
    fragment defines, and nothing else. *)
Lemma SortAndMerge_keySources k :
  keySources (SortAndMerge ord now e) !! k
  = match contributors k (sort_SliceStable (fragments e)) with
    | [] => None
    | names => Some names
    end.
Proof.
  unfold SortAndMerge. cbn -[merge_loop sort_SliceStable].
  rewrite merge_loop_keySources, lookup_empty. done.
Qed.
End SortAndMergeFacts.

Lemma occurs_before_filter (P : EnvFragment → bool) x y l :
  P x = true → P y = true →
  occurs_before x y l ↔ occurs_before x y (List.filter P l).
Proof.
  intros Hx Hy. split.
  - intros (l1 & l2 & l3 & ->).
    exists (List.filter P l1), (List.filter P l2), (List.filter P l3).
    rewrite List.filter_app. cbn [List.filter]. rewrite Hx.
    rewrite List.filter_app. cbn [List.filter]. by rewrite Hy.
  - induction l as [|a l IH]; cbn [List.filter].
    { intros (l1 & l2 & l3 & Heq). by destruct l1. }
    destruct (P a) eqn:Ha.
    + intros (l1 & l2 & l3 & Heq). destruct l1 as [|b l1].
      * injection Heq as -> Heq.
        assert (y ∈ l) as Hin.
        { apply list_elem_of_In.
          apply (proj1 (List.filter_In P y l)).
          rewrite Heq. apply in_or_app. right. by left. }
        apply list_elem_of_split in Hin as (l2' & l3' & ->).
        by exists [], l2', l3'.
      * injection Heq as -> Heq.
        destruct IH as (l1' & l2' & l3' & ->); [by exists l1, l2, l3|].
        by exists (b :: l1'), l2', l3'.
    + intros Hb. destruct (IH Hb) as (l1' & l2' & l3' & ->).
      by exists (a :: l1'), l2', l3'.
Qed.

(** C6: the sort of SortAndMerge is by ascending priority and stable:
    the fragments of any one priority keep their order, so of two
    fragments with equal priority one comes before the other after the
    merge exactly when it did before. *)
Theorem SortAndMerge_stable (ord : RangeOrder) (now : Time) (e : EnvManager) :
  let e' := SortAndMerge ord now e in
  Sorted prio_le (fragments e')
  ∧ fragments e' ≡ₚ fragments e
  ∧ (∀ p, with_priority p (fragments e') = with_priority p (fragments e))
  ∧ (∀ x y, Priority x = Priority y →
       occurs_before x y (fragments e') ↔ occurs_before x y (fragments e)).
Proof.
  cbn zeta. rewrite SortAndMerge_fragments.
  split; [apply sort_SliceStable_sorted|].
  split; [apply sort_SliceStable_perm|].
  split; [intros p; apply sort_SliceStable_with_priority|].
  intros x y Hxy.
  pose (P := λ f, Priority f =? Priority x).
  assert (P x = true) as Hx by (unfold P; lia).
  assert (P y = true) as Hy by (unfold P; lia).
  rewrite (occurs_before_filter P x y (sort_SliceStable _) Hx Hy).
  rewrite (occurs_before_filter P x y (fragments e) Hx Hy).
  change (List.filter P) with (with_priority (Priority x)).
  by rewrite sort_SliceStable_with_priority.
Qed.


(** C5: merging twice in a row changes nothing: the second call leaves
    [fragments], [merged] and [keySources] as the first one made them,
    whatever orders the runtime picks to walk the maps; for the same
    reason the result of one merge does not depend on that order. *)
Theorem SortAndMerge_idempotent
    (ord1 ord2 : RangeOrder) (now1 now2 : Time) (e : EnvManager) :
  let e1 := SortAndMerge ord1 now1 e in
  let e2 := SortAndMerge ord2 now2 e1 in
  (fragments e2 = fragments e1
   ∧ merged e2 = merged e1
   ∧ keySources e2 = keySources e1)
  ∧ (merged (SortAndMerge ord2 now2 e) = merged e1
     ∧ keySources (SortAndMerge ord2 now2 e) = keySources e1).
Proof.
  cbn zeta.
  assert (∀ a b : EnvManager,
            is_Some (merged a) → is_Some (merged b) →
            merged_map a = merged_map b → merged a = merged b) as Hopt.
  { intros a b [ma Ha] [mb Hb]. unfold merged_map. rewrite Ha, Hb.
    simpl. by intros ->. }
  repeat split.
  - rewrite !SortAndMerge_fragments. apply sort_SliceStable_idemp.
  - apply Hopt; [by eexists..|]. apply map_eq. intros k.
    rewrite (SortAndMerge_merged ord2), !SortAndMerge_fragments.
    rewrite sort_SliceStable_idemp, SortAndMerge_merged.
    by destruct (last_value k _).
  - apply map_eq. intros k.
    rewrite !SortAndMerge_keySources, !SortAndMerge_fragments.
    by rewrite sort_SliceStable_idemp.
  - apply Hopt; [by eexists..|]. apply map_eq. intros k.
    by rewrite !SortAndMerge_merged.
  - apply map_eq. intros k. by rewrite !SortAndMerge_keySources.
Qed.


(** The example of the specification: [LANG] defined at priority 10 and
    again at priority 150. *)
Example merge_LANG :
  let e := SortAndMerge canonical_order 0
             {| fragments :=
                  [ {| Name := "user_service"; Priority := 150;
                       Env := {[ "LANG" := "zh_CN.UTF-8" ]};
                       Scripts := []; Source := "user.yaml" |};
                    {| Name := "system_base"; Priority := 10;
                       Env := {[ "LANG" := "en_US.UTF-8" ]};
                       Scripts := []; Source := "system.yaml" |} ];
                merged := None; keySources := ∅; sorted := false;
                ctime := 0 |} in
  Name <$> fragments e = ["system_base"; "user_service"]
  ∧ merged_map e !! "LANG" = Some "zh_CN.UTF-8"
  ∧ keySources e !! "LANG" = Some ["system_base"; "user_service"].
Proof. vm_compute. done. Qed.

(** A key no current fragment defines is not touched by a merge: it
    keeps the value an earlier merge gave it, and has no chain. *)
Lemma SortAndMerge_stale_key ord now e k :
  Forall (λ f, Env f !! k = None) (fragments e) →
  merged_map (SortAndMerge ord now e) !! k = merged_map e !! k
  ∧ keySources (SortAndMerge ord now e) !! k = None.
Proof.
  intros Hnone.
  assert (Forall (λ f, Env f !! k = None) (sort_SliceStable (fragments e)))
    as Hsorted by (by rewrite sort_SliceStable_perm).
  rewrite SortAndMerge_merged, SortAndMerge_keySources.
  rewrite (proj2 (last_value_None k _) Hsorted).
  by rewrite (contributors_nil k _ Hsorted).
Qed.

(** ** Validation *)

Section ValidationFacts.
Variables SystemEnv InnerComponentEnv : gmap string Z.
Local Abbreviation validate := (validateFragment SystemEnv InnerComponentEnv).
Local Abbreviation tier_of := (classify SystemEnv InnerComponentEnv).

(** The system tier as the code checks it: only the upper bound. *)
Lemma validateFragment_system frag :
  Name frag ≠ EmptyString → tier_of (Name frag) = System →
  validate frag = if 19 <? Priority frag
                  then Some (ErrSystemPriority (Name frag) (Priority frag))
                  else None.
Proof.
  intros Hname Htier. unfold validateFragment, classify in *.
  apply String.eqb_neq in Hname. rewrite Hname.
  destruct (0 <? default 0 (SystemEnv !! Name frag)); [done|].
  by destruct (0 <? default 0 (InnerComponentEnv !! Name frag)).
Qed.

Lemma validateFragment_internal frag :
  Name frag ≠ EmptyString → tier_of (Name frag) = Internal →
  validate frag = None ↔ 20 ≤ Priority frag ≤ 99.
Proof.
  intros Hname Htier. unfold validateFragment, classify in *.
  apply String.eqb_neq in Hname. rewrite Hname.
  destruct (0 <? default 0 (SystemEnv !! Name frag)); [done|].
  destruct (0 <? default 0 (InnerComponentEnv !! Name frag)); [|done].
  destruct (Z.ltb_spec (Priority frag) 20), (Z.ltb_spec 99 (Priority frag));
    simpl; split; (done || lia).
Qed.

Lemma validateFragment_custom frag :
  Name frag ≠ EmptyString → tier_of (Name frag) = Custom →
  validate frag = None ↔ 100 ≤ Priority frag.
Proof.
  intros Hname Htier. unfold validateFragment, classify in *.
  apply String.eqb_neq in Hname. rewrite Hname.
  destruct (0 <? default 0 (SystemEnv !! Name frag)); [done|].
  destruct (0 <? default 0 (InnerComponentEnv !! Name frag)); [done|].
  destruct (Z.ltb_spec (Priority frag) 100); split; (done || lia).
Qed.

(** A system fragment is refused exactly above 19. *)
Lemma validateFragment_system_iff frag :
  Name frag ≠ EmptyString → tier_of (Name frag) = System →
  is_Some (validate frag) ↔ 19 < Priority frag.
Proof.
  intros Hname Htier. rewrite (validateFragment_system _ Hname Htier).
  destruct (Z.ltb_spec 19 (Priority frag)); split;
    try done; try lia; by intros [? ?].
Qed.
End ValidationFacts.

(** C2: a fragment of the system tier with priority -1, outside
    [0, 19], passes validateFragment: the code tests the upper bound
    only ([frag.Priority > 19]). *)
Theorem validateFragment_system_negative :
  let frag := {| Name := "system_base"; Priority := -1; Env := ∅;
                 Scripts := []; Source := "system.yaml" |} in
  classify exampleSystemEnv exampleInnerEnv (Name frag) = System
  ∧ ¬ (0 ≤ Priority frag ≤ 19)
  ∧ validateFragment exampleSystemEnv exampleInnerEnv frag = None.
Proof. cbn zeta. split; [reflexivity|]. split; [simpl; lia|reflexivity]. Qed.

(** ** The PowerShell emitter *)

(** Scripts of another shell contribute nothing. *)
Lemma script_lines_other tag scs :
  Forall (λ sc, Sh sc ≠ tag) scs → script_lines tag scs = EmptyString.
Proof.
  induction 1 as [|sc scs Hsc _ IH]; [done|].
  unfold script_lines in *. rewrite fmap_cons. cbn [cat foldr].
  apply String.eqb_neq in Hsc. rewrite Hsc. simpl. exact IH.
Qed.

Lemma append_empty_r (s : string) : s +:+ EmptyString = s.
Proof.
  induction s as [|c s IH]; [done|].
  change (String c (s +:+ EmptyString) = String c s). by rewrite IH.
Qed.

(** A script tagged [pw] is written out, body and line feed. *)
Lemma script_lines_pw body :
  script_lines "pw" [ {| Sh := "pw"; Data := body |} ] = body +:+ nl.
Proof.
  unfold script_lines. cbn [fmap list_fmap cat foldr Sh Data].
  change (String.eqb "pw" "pw") with true. cbn iota.
  apply append_empty_r.
Qed.

(** C4: BuildPsh on the sample fragment of ExampleEnvYaml.  Its third
    script is tagged [pwsh] in the sample (and [powershell] is the tag
    the Script type documents); with either tag the file BuildPsh
    writes holds the timestamp line, the fragment header, the variable
    assignments and the closing blank line, and no script body: the
    emitter only looks for the tag [pw]. *)
Theorem BuildPsh_drops_sample_script
    (format_RFC3339 : Time → string) (ord ord' : RangeOrder) (now : Time)
    (tag : string) :
  tag ∈ ["pwsh"; "powershell"] →
  let frag := sampleService tag in
  let e := SortAndMerge ord now
             {| fragments := [frag]; merged := None; keySources := ∅;
                sorted := false; ctime := 0 |} in
  let r := BuildPsh format_RFC3339 ord' e (writableFS ∅) "env.ps1" in
  r.1 = None
  ∧ files r.2 !! "env.ps1"
    = Some ("$Env:ENV_CTIME = " +:+ dq +:+ format_RFC3339 now +:+ dq +:+ nl
            +:+ fragment_header "sample_service"
            +:+ psh_lines (range_of ord' 0 (Env frag))
            +:+ nl)
  ∧ script_lines "pw" (Scripts frag) = EmptyString.
Proof.
  intros Htag.
  assert (tag = "pwsh" ∨ tag = "powershell") as [-> | ->].
  { apply elem_of_cons in Htag as [->|Htag]; [by left|].
    apply elem_of_cons in Htag as [->|Htag]; [by right|].
    by apply elem_of_nil in Htag. }
  - cbn zeta. split; [reflexivity|]. split; reflexivity.
  - cbn zeta. split; [reflexivity|]. split; reflexivity.
Qed.

Lemma BuildPsh_drops_sample_script_witness :
  "pwsh" ∈ ["pwsh"; "powershell"]
  ∧ script_lines "pw" (Scripts (sampleService "pwsh")) = EmptyString.
Proof.
  assert ("pwsh" ∈ ["pwsh"; "powershell"]) as Htag by apply list_elem_of_here.
  split; [exact Htag|].
  exact (proj2 (proj2 (BuildPsh_drops_sample_script
                         (λ _, "2024-05-01T10:00:00Z") canonical_order
                         canonical_order 0 "pwsh" Htag))).
Defined.

(** ** Merging again over another fragment set *)

(** The reload scenario, step by step. *)
Lemma reload_scenario
    (parse_RFC3339 : string → option Time) (ord1 ord2 : RangeOrder)
    (now1 now2 : Time) :
  let e0 := (FeedFile exampleSystemEnv exampleInnerEnv scenario_Decoder
               scenarioFS "system.yaml" newManager).2 in
  let e1 := SortAndMerge ord1 now1 e0 in
  let r := LoadAllYaml parse_RFC3339 scenario_Unmarshal ord2 now2
             scenarioFS "state.yaml" e1 in
  merged_map e1 !! "PATH" = Some "/usr/local/bin:/usr/bin"
  ∧ r.1 = None
  ∧ fragments r.2 = [customFrag]
  ∧ Forall (λ f, Env f !! "PATH" = None) (fragments r.2)
  ∧ merged_map r.2 !! "PATH" = Some "/usr/local/bin:/usr/bin"
  ∧ keySources r.2 !! "PATH" = None.
Proof.
  intros e0 e1 r.
  assert (fragments e0 = [with_source "system.yaml" systemFrag]
          ∧ merged e0 = None) as [Hfr0 Hm0] by (split; reflexivity).
  assert (merged_map e1 !! "PATH" = Some "/usr/local/bin:/usr/bin") as Hpath.
  { unfold e1. rewrite SortAndMerge_merged, Hfr0. reflexivity. }
  pose (e1' := {| fragments := [customFrag]; merged := merged e1;
                  keySources := keySources e1; sorted := true;
                  ctime := default (ctime e1)
                             (parse_RFC3339 "2024-05-01T10:00:00Z") |}).
  assert (r = (None, SortAndMerge ord2 now2 e1')) as -> by reflexivity.
  assert (Forall (λ f, Env f !! "PATH" = None) (fragments e1')) as Hnone.
  { repeat constructor. }
  destruct (SortAndMerge_stale_key ord2 now2 e1' "PATH" Hnone) as [Hm Hks].
  cbn [fst snd]. repeat split; try done.
  - rewrite Hm. exact Hpath.
Qed.

(** C3: a manager is fed [system.yaml], merged, and then loaded from a
    saved state whose only fragment is [customFrag] (LoadAllYaml
    replaces the fragment list and merges again).  No fragment of the
    manager defines [PATH] any more and [keySources] has no chain for
    it, yet [merged] still maps [PATH] to the value of the earlier
    merge: SortAndMerge allocates [merged] when it is nil and never
    empties it. *)
Theorem reload_keeps_stale_key
    (parse_RFC3339 : string → option Time) (ord1 ord2 : RangeOrder)
    (now1 now2 : Time) :
  let e0 := (FeedFile exampleSystemEnv exampleInnerEnv scenario_Decoder
               scenarioFS "system.yaml" newManager).2 in
  let e1 := SortAndMerge ord1 now1 e0 in
  let r := LoadAllYaml parse_RFC3339 scenario_Unmarshal ord2 now2
             scenarioFS "state.yaml" e1 in
  merged_map e1 !! "PATH" = Some "/usr/local/bin:/usr/bin"
  ∧ r.1 = None
  ∧ fragments r.2 = [customFrag]
  ∧ Forall (λ f, Env f !! "PATH" = None) (fragments r.2)
  ∧ merged_map r.2 !! "PATH" = Some "/usr/local/bin:/usr/bin"
  ∧ keySources r.2 !! "PATH" = None.
Proof. apply reload_scenario. Qed.

(** ** Search *)

Lemma filter_length_perm {A} (P : A → bool) (l l' : list A) :
  l ≡ₚ l' →
  List.length (List.filter P l) = List.length (List.filter P l').
Proof.
  induction 1 as [|x l l' _ IH|x y l|l l' l'' _ IH1 _ IH2]; simpl.
  - done.
  - destruct (P x); simpl; by rewrite IH.
  - by destruct (P x), (P y).
  - by rewrite IH1.
Qed.

Section SearchFacts.
Context {Regexp : Type}.
Variable regexp_Compile : string → option Regexp.
Variable MatchString : Regexp → string → bool.
Variables (re : Regexp) (ord : RangeOrder).

Local Abbreviation env_result frag k v :=
  {| FragmentName := Name frag; Key := k; Value := v |}.
Local Abbreviation script_result frag sc :=
  {| FragmentName := Name frag; Key := "script[" +:+ Sh sc +:+ "]";
     Value := Data sc |}.

(** The results one fragment gives: one for each entry of its own [Env]
    whose key or value matches, one for each script whose text matches. *)
Lemma elem_of_search_fragment i frag r :
  r ∈ search_fragment MatchString re (range_of ord i (Env frag)) frag
  ↔ (∃ k v, Env frag !! k = Some v
            ∧ (MatchString re k = true ∨ MatchString re v = true)
            ∧ r = env_result frag k v)
    ∨ (∃ sc, sc ∈ Scripts frag ∧ MatchString re (Data sc) = true
             ∧ r = script_result frag sc).
Proof.
  unfold search_fragment. rewrite elem_of_app, !list_elem_of_fmap.
  split.
  - intros [([k v] & -> & Hin)|(sc & -> & Hin)].
    + left. apply list_elem_of_In, List.filter_In in Hin as [Hin Hm].
      apply list_elem_of_In in Hin. rewrite (range_perm ord) in Hin.
      apply elem_of_map_to_list in Hin. apply orb_true_iff in Hm.
      by exists k, v.
    + right. apply list_elem_of_In, List.filter_In in Hin as [Hin Hm].
      apply list_elem_of_In in Hin. by exists sc.
  - intros [(k & v & Hkv & Hm & ->)|(sc & Hin & Hm & ->)].
    + left. exists (k, v). split; [done|].
      apply list_elem_of_In, List.filter_In. split.
      * apply list_elem_of_In. rewrite (range_perm ord).
        by apply elem_of_map_to_list.
      * by apply orb_true_iff.
    + right. exists sc. split; [done|].
      apply list_elem_of_In, List.filter_In. split; [|done].
      by apply list_elem_of_In.
Qed.

Lemma length_search_fragment i frag :
  List.length (search_fragment MatchString re (range_of ord i (Env frag)) frag)
  = hits MatchString re frag.
Proof.
  unfold search_fragment, hits.
  rewrite length_app, !length_fmap. f_equal.
  apply filter_length_perm, range_perm.
Qed.

Lemma search_loop_app i l1 l2 :
  search_loop MatchString re ord i (l1 ++ l2)
  = search_loop MatchString re ord i l1
    ++ search_loop MatchString re ord (i + List.length l1) l2.
Proof.
  revert i. induction l1 as [|f l1 IH]; intros i; simpl.
  - by rewrite Nat.add_0_r.
  - rewrite IH, <- app_assoc. by rewrite Nat.add_succ_r.
Qed.

Lemma elem_of_search_loop i frags r :
  r ∈ search_loop MatchString re ord i frags
  ↔ ∃ frag, frag ∈ frags
      ∧ ((∃ k v, Env frag !! k = Some v
                 ∧ (MatchString re k = true ∨ MatchString re v = true)
                 ∧ r = env_result frag k v)
         ∨ (∃ sc, sc ∈ Scripts frag ∧ MatchString re (Data sc) = true
                  ∧ r = script_result frag sc)).
Proof.
  revert i. induction frags as [|f frags IH]; intros i; simpl.
  - split; [by intros ?%elem_of_nil|]. by intros (? & ?%elem_of_nil & _).
  - rewrite elem_of_app, elem_of_search_fragment, IH. split.
    + intros [Hf|(g & Hg & Hr)].
      * exists f. split; [apply list_elem_of_here|done].
      * exists g. split; [by apply list_elem_of_further|done].
    + intros (g & Hg & Hr). apply elem_of_cons in Hg as [->|Hg].
      * by left.
      * right. by exists g.
Qed.

Lemma length_search_loop i frags :
  List.length (search_loop MatchString re ord i frags)
  = sum_list (hits MatchString re <$> frags).
Proof.
  revert i. induction frags as [|f frags IH]; intros i; [done|].
  cbn [search_loop]. rewrite length_app, length_search_fragment, IH.
  done.
Qed.

(** Two fragments that define a matching key give two results, at two
    places of the result list, in the order of the fragments. *)
Lemma search_loop_two i l1 f1 l2 f2 l3 k v1 v2 :
  Env f1 !! k = Some v1 → Env f2 !! k = Some v2 →
  MatchString re k = true →
  ∃ r1 r2 r3,
    search_loop MatchString re ord i (l1 ++ f1 :: l2 ++ f2 :: l3)
    = r1 ++ env_result f1 k v1 :: r2 ++ env_result f2 k v2 :: r3.
Proof.
  intros H1 H2 Hm.
  assert (∀ j f v, Env f !! k = Some v →
            ∃ a b, search_fragment MatchString re (range_of ord j (Env f)) f
                   = a ++ env_result f k v :: b) as Hsplit.
  { intros j f v Hv. apply list_elem_of_split.
    apply elem_of_search_fragment. left. exists k, v. auto. }
  rewrite search_loop_app. cbn [search_loop].
  rewrite search_loop_app. cbn [search_loop].
  destruct (Hsplit (i + List.length l1)%nat f1 v1 H1) as (a & b & ->).
  destruct (Hsplit (S (i + List.length l1) + List.length l2)%nat f2 v2 H2)
    as (c & d & ->).
  exists (search_loop MatchString re ord i l1 ++ a),
    (b ++ search_loop MatchString re ord (S (i + List.length l1)) l2 ++ c),
    (d ++ search_loop MatchString re ord
            (S (S (i + List.length l1) + List.length l2)) l3).
  repeat (rewrite <- ?app_assoc; cbn [app]). reflexivity.
Qed.
End SearchFacts.

(** C7: on a merged manager and a pattern that compiles, Search returns
    the results of scanning each fragment's own [Env] and scripts:
    a result for an entry whose key or value matches and for a script
    whose text matches, as many results as there are such entries and
    scripts (nothing is deduplicated), two results at two places when
    two fragments define a matching key, and the same results whatever
    [merged] and [keySources] hold. *)
Theorem Search_scans_every_fragment {Regexp : Type}
    (regexp_Compile : string → option Regexp)
    (MatchString : Regexp → string → bool)
    (ord : RangeOrder) (e : EnvManager) (pattern : string) (re : Regexp) :
  sorted e = true → regexp_Compile pattern = Some re →
  ∃ results,
    Search regexp_Compile MatchString ord e pattern = inr results
    ∧ (∀ r, r ∈ results ↔
         ∃ frag, frag ∈ fragments e
           ∧ ((∃ k v, Env frag !! k = Some v
                      ∧ (MatchString re k = true ∨ MatchString re v = true)
                      ∧ r = {| FragmentName := Name frag; Key := k;
                               Value := v |})
              ∨ (∃ sc, sc ∈ Scripts frag ∧ MatchString re (Data sc) = true
                       ∧ r = {| FragmentName := Name frag;
                                Key := "script[" +:+ Sh sc +:+ "]";
                                Value := Data sc |})))
    ∧ List.length results = sum_list (hits MatchString re <$> fragments e)
    ∧ (∀ l1 f1 l2 f2 l3 k v1 v2,
         fragments e = l1 ++ f1 :: l2 ++ f2 :: l3 →
         Env f1 !! k = Some v1 → Env f2 !! k = Some v2 →
         MatchString re k = true →
         ∃ r1 r2 r3,
           results
           = r1 ++ {| FragmentName := Name f1; Key := k; Value := v1 |}
                :: r2 ++ {| FragmentName := Name f2; Key := k; Value := v2 |}
                :: r3)
    ∧ (∀ m ks,
         Search regexp_Compile MatchString ord
           {| fragments := fragments e; merged := m; keySources := ks;
              sorted := sorted e; ctime := ctime e |} pattern
         = inr results).
Proof.
  intros Hsorted Hre.
  exists (search_loop MatchString re ord 0 (fragments e)).
  split; [by unfold Search; rewrite Hsorted, Hre|].
  split; [intros r; apply elem_of_search_loop|].
  split; [apply length_search_loop|].
  split.
  - intros l1 f1 l2 f2 l3 k v1 v2 -> H1 H2 Hm.
    by apply search_loop_two.
  - intros m ks. unfold Search. cbn [sorted fragments].
    by rewrite Hsorted, Hre.
Qed.

Lemma Search_scans_every_fragment_witness :
  let e := SortAndMerge canonical_order 0 exampleManager in
  sorted e = true
  ∧ literal_Compile "APP_HOME" = Some "APP_HOME"
  ∧ Search literal_Compile literal_MatchString canonical_order e "APP_HOME"
    = inr [ {| FragmentName := "internal_service"; Key := "APP_HOME";
               Value := "/opt/app" |};
            {| FragmentName := "user_service"; Key := "APP_HOME";
               Value := "/home/user/app" |} ]
  ∧ merged_map e !! "APP_HOME" = Some "/home/user/app".
Proof.
  intros e.
  assert (sorted e = true) as Hs by reflexivity.
  assert (literal_Compile "APP_HOME" = Some "APP_HOME") as Hc by reflexivity.
  split; [exact Hs|]. split; [exact Hc|]. split; [|reflexivity].
  destruct (Search_scans_every_fragment literal_Compile literal_MatchString
              canonical_order e "APP_HOME" "APP_HOME" Hs Hc)
    as (results & Hres & _).
  reflexivity.
Defined.

(** ** Saving and loading *)

(** A slice of pointers to the fragments of a list has no nil entry. *)
Lemma deref_all_fmap_Some (frags : list EnvFragment) :
  deref_all (Some <$> frags) = Some frags.
Proof.
  induction frags as [|f frags IH]; [done|].
  rewrite fmap_cons. cbn [deref_all]. by rewrite IH.
Qed.

Lemma deref_all_Some ptrs frags :
  deref_all ptrs = Some frags ↔ ptrs = Some <$> frags.
Proof.
  split; [|intros ->; apply deref_all_fmap_Some].
  revert frags. induction ptrs as [|[f|] ptrs IH]; intros frags; cbn.
  - by intros [= <-].
  - destruct (deref_all ptrs) as [l|]; [|done].
    intros [= <-]. rewrite fmap_cons. f_equal. by apply IH.
  - done.
Qed.

Lemma deref_all_None ptrs : deref_all ptrs = None ↔ None ∈ ptrs.
Proof.
  induction ptrs as [|[f|] ptrs IH]; cbn.
  - split; [done|]. by intros ?%elem_of_nil.
  - destruct (deref_all ptrs) as [l|].
    + split; [done|]. intros [?|Hin]%elem_of_cons; [done|].
      by apply IH in Hin.
    + split; [|done]. intros _. apply list_elem_of_further. by apply IH.
  - split; [|done]. intros _. apply list_elem_of_here.
Qed.

Section RoundTrip.
Variable format_RFC3339 : Time → string.
Variable parse_RFC3339 : string → option Time.
Variable yaml_Marshal : dumpStruct → option string.
Variable yaml_Unmarshal : string → option dumpStruct.

Local Abbreviation save := (SaveAllYaml format_RFC3339 yaml_Marshal).
Local Abbreviation load := (LoadAllYaml parse_RFC3339 yaml_Unmarshal).

(** Saving writes the marshalled document where loading reads it. *)
Lemma SaveAllYaml_file e fs path data :
  yaml_Marshal (dump_of format_RFC3339 e) = Some data →
  creatable fs path = true →
  (save e fs path).1 = None
  ∧ os_ReadFile (save e fs path).2 path = Some data.
Proof.
  intros Hm Hc. unfold SaveAllYaml, dump_of in *. cbn zeta. rewrite Hm.
  unfold os_Create. rewrite Hc. cbn [fst snd]. split; [done|].
  unfold os_ReadFile, Fprint. cbn [files].
  by rewrite !lookup_insert_eq.
Qed.

(** Loading takes the fragments of the document and merges them into
    whatever [merged] the receiving manager holds. *)
Lemma LoadAllYaml_merges ord now fs path data d frags e0 :
  os_ReadFile fs path = Some data → yaml_Unmarshal data = Some d →
  Fragments d = Some <$> frags →
  (load ord now fs path e0).1 = None
  ∧ merged (load ord now fs path e0).2
    = Some (merged_map (load ord now fs path e0).2)
  ∧ fragments (load ord now fs path e0).2 = sort_SliceStable frags
  ∧ (∀ k, merged_map (load ord now fs path e0).2 !! k
          = match last_value k (sort_SliceStable frags) with
            | Some v => Some v
            | None => merged_map e0 !! k
            end)
  ∧ (∀ k, keySources (load ord now fs path e0).2 !! k
          = match contributors k (sort_SliceStable frags) with
            | [] => None
            | names => Some names
            end).
Proof.
  intros Hread Hd Hfrags. unfold LoadAllYaml.
  rewrite Hread, Hd, Hfrags, deref_all_fmap_Some. cbn [fst snd].
  split; [done|]. split; [done|]. split; [done|]. split; intros k.
  - by rewrite SortAndMerge_merged.
  - by rewrite SortAndMerge_keySources.
Qed.

(** Saving a merged manager and loading the file into a fresh one
    gives back its fragments and its [keySources], and the [merged] of
    a manager whose own merge started from an empty [merged]. *)
Lemma roundtrip_fresh ord ord' now now' e0 fs path data :
  merged e0 = None →
  let e := SortAndMerge ord now e0 in
  yaml_Marshal (dump_of format_RFC3339 e) = Some data →
  yaml_Unmarshal data = Some (dump_of format_RFC3339 e) →
  creatable fs path = true →
  let e' := (load ord' now' (save e fs path).2 path newManager).2 in
  fragments e' = fragments e
  ∧ merged e' = merged e
  ∧ keySources e' = keySources e.
Proof.
  intros Hfresh e Hm Hu Hc e'.
  destruct (SaveAllYaml_file e fs path data Hm Hc) as [_ Hread].
  destruct (LoadAllYaml_merges ord' now' _ path data _ (fragments e)
              newManager Hread Hu eq_refl)
    as (_ & Hsome & Hfr & Hmerged & Hks).
  fold e' in Hsome, Hfr, Hmerged, Hks.
  assert (sort_SliceStable (fragments e) = fragments e) as Hid.
  { unfold e. rewrite SortAndMerge_fragments. apply sort_SliceStable_idemp. }
  rewrite Hid in *. split; [done|]. split.
  - rewrite Hsome. unfold e at 1. rewrite SortAndMerge_merged_Some. fold e.
    f_equal. apply map_eq. intros k. rewrite Hmerged. unfold e.
    rewrite SortAndMerge_merged, <- (SortAndMerge_fragments ord now e0).
    fold e. unfold merged_map at 2. rewrite Hfresh.
    unfold newManager, merged_map. by cbn [merged default].
  - apply map_eq. intros k. rewrite Hks. unfold e.
    by rewrite SortAndMerge_keySources, <- (SortAndMerge_fragments ord now e0).
Qed.
End RoundTrip.

(** ** The gate on [sorted] *)

Section Gate.
Variables SystemEnv InnerComponentEnv : gmap string Z.
Variable format_RFC3339 : Time → string.
Variable parse_RFC3339 : string → option Time.
Variable yaml_Decoder : string → list Decoded.
Variable yaml_Marshal : dumpStruct → option string.
Variable yaml_Unmarshal : string → option dumpStruct.

Local Abbreviation step' :=
  (step SystemEnv InnerComponentEnv format_RFC3339 parse_RFC3339
     yaml_Decoder yaml_Marshal yaml_Unmarshal).
Local Abbreviation run' :=
  (run SystemEnv InnerComponentEnv format_RFC3339 parse_RFC3339
     yaml_Decoder yaml_Marshal yaml_Unmarshal).

Lemma FeedFile_sorted fs fpath e :
  sorted (FeedFile SystemEnv InnerComponentEnv yaml_Decoder fs fpath e).2
  = sorted e.
Proof. unfold FeedFile. by destruct (os_ReadFile fs fpath). Qed.

(** A call sets [sorted] exactly when it runs the merge, and no call
    clears it. *)
Lemma step_sorted e fs c :
  sorted (step' (e, fs) c).1.1 = sorted e || (step' (e, fs) c).2.
Proof.
  destruct c; cbn [step fst snd];
    try (by rewrite orb_false_r); try (by rewrite orb_true_r).
  - by rewrite FeedFile_sorted, orb_false_r.
  - unfold LoadAllYaml. destruct (os_ReadFile fs path); cbn [fst snd].
    + destruct (yaml_Unmarshal s) as [d|]; cbn [fst snd].
      * destruct (deref_all (Fragments d)); cbn [fst snd].
        -- by rewrite orb_true_r.
        -- by rewrite orb_false_r.
      * by rewrite orb_false_r.
    + by rewrite orb_false_r.
Qed.

Lemma run_sorted cs e fs ran :
  sorted e = ran →
  sorted (run' cs (e, fs) ran).1.1 = (run' cs (e, fs) ran).2.
Proof.
  revert e fs ran. induction cs as [|c cs IH]; intros e fs ran Hran; [done|].
  cbn [run]. destruct (call_panics _ _ (e, fs) c); [done|].
  destruct (step' (e, fs) c) as [[e' fs'] b] eqn:Hstep. cbn [fst snd].
  apply IH. rewrite <- Hran.
  change e' with (e', fs', b).1.1. change b with (e', fs', b).2 at 2.
  rewrite <- Hstep. apply step_sorted.
Qed.
End Gate.

(** C8: in the state any sequence of calls leaves a fresh manager in,
    [sorted] holds exactly when a merge has run.  Search fails exactly
    when no merge has run or the pattern does not compile; with no
    merge it fails with the not-merged error whatever the pattern, and
    so do BuildBash, BuildZsh, BuildPsh and WriteMeta, leaving the file
    system alone; after a merge, a pattern that does not compile gives
    the invalid-pattern error. *)
Theorem not_merged_gate {Regexp : Type}
    (SystemEnv InnerComponentEnv : gmap string Z)
    (format_RFC3339 : Time → string) (parse_RFC3339 : string → option Time)
    (regexp_Compile : string → option Regexp)
    (MatchString : Regexp → string → bool)
    (yaml_Decoder : string → list Decoded)
    (yaml_Marshal : dumpStruct → option string)
    (yaml_Unmarshal : string → option dumpStruct)
    (cs : list Call) (fs0 : FS) (ord : RangeOrder) (pattern dst : string) :
  let r := run SystemEnv InnerComponentEnv format_RFC3339 parse_RFC3339
             yaml_Decoder yaml_Marshal yaml_Unmarshal cs (newManager, fs0)
             false in
  let e := r.1.1 in
  let fs := r.1.2 in
  let merge_ran := r.2 in
  sorted e = merge_ran
  ∧ ((∃ err, Search regexp_Compile MatchString ord e pattern = inl err)
     ↔ merge_ran = false ∨ regexp_Compile pattern = None)
  ∧ (merge_ran = false →
       Search regexp_Compile MatchString ord e pattern = inl ErrNotBuilt
       ∧ BuildBash format_RFC3339 ord e fs dst = (Some ErrNotBuilt, fs)
       ∧ BuildZsh format_RFC3339 ord e fs dst = (Some ErrNotBuilt, fs)
       ∧ BuildPsh format_RFC3339 ord e fs dst = (Some ErrNotBuilt, fs)
       ∧ WriteMeta format_RFC3339 e fs dst = (Some ErrNotGen, fs)
       ∧ kind_of ErrNotBuilt = NotMerged ∧ kind_of ErrNotGen = NotMerged)
  ∧ (merge_ran = true → regexp_Compile pattern = None →
       Search regexp_Compile MatchString ord e pattern
       = inl (ErrInvalidPattern pattern)
       ∧ kind_of (ErrInvalidPattern pattern) = InvalidPattern).
Proof.
  intros r e fs merge_ran.
  assert (sorted e = merge_ran) as Hs.
  { unfold e, merge_ran, r. destruct fs0 as [content can].
    by apply run_sorted. }
  split; [exact Hs|]. clearbody e fs merge_ran. clear r. subst merge_ran.
  unfold Search, BuildBash, BuildZsh, BuildPsh, WriteMeta.
  destruct (sorted e); cbn [negb].
  - split; [|split; [done|]].
    + destruct (regexp_Compile pattern) as [re|].
      * split; [by intros [err ?]|by intros [?|?]].
      * split; [by right|by eexists].
    + intros _ ->. done.
  - split; [|split; [done|by intros ?]].
    split; [by left|by eexists].
Qed.

(** SaveAllYaml, which is not among the gated operations, on a manager
    that was never merged: it succeeds, and the file holds the
    formatted (zero) merge time. *)
Example SaveAllYaml_without_merge :
  let format := λ t : Time, if t =? 0 then "0001-01-01T00:00:00Z"
                            else "2024-05-01T10:00:00Z" in
  let marshal := λ d : dumpStruct, Some ("ctime: " +:+ CTime d) in
  let r := SaveAllYaml format marshal newManager (writableFS ∅) "all.yaml" in
  sorted newManager = false
  ∧ r.1 = None
  ∧ files r.2 !! "all.yaml" = Some "ctime: 0001-01-01T00:00:00Z".
Proof. cbn zeta. split; [reflexivity|]. split; reflexivity. Qed.

(** ** FeedFile *)

Section Feeding.
Variables SystemEnv InnerComponentEnv : gmap string Z.
Variable yaml_Decoder : string → list Decoded.

Local Abbreviation validate := (validateFragment SystemEnv InnerComponentEnv).
Local Abbreviation feed := (feed_documents SystemEnv InnerComponentEnv).

(** Documents that pass validation are appended one after the other. *)
Lemma feed_documents_valid fpath pre docs frags :
  Forall (λ f, validate (with_source fpath f) = None) pre →
  feed fpath ((DocFragment <$> pre) ++ docs) frags
  = feed fpath docs (frags ++ (with_source fpath <$> pre)).
Proof.
  intros Hpre. revert frags.
  induction Hpre as [|f pre Hf _ IH]; intros frags.
  - by rewrite app_nil_r.
  - rewrite fmap_cons. cbn [app feed_documents]. rewrite Hf, IH.
    by rewrite fmap_cons, <- app_assoc.
Qed.
End Feeding.

(** C10: FeedFile is not atomic.  When the documents of a file start
    with fragments that pass validation and the next document fails to
    parse or fails validation, FeedFile returns the error of that
    document, and the fragments of the earlier documents are in the
    store all the same (nothing else of the manager changes). *)
Theorem FeedFile_not_atomic
    (SystemEnv InnerComponentEnv : gmap string Z)
    (yaml_Decoder : string → list Decoded)
    (fs : FS) (fpath data : string) (e : EnvManager)
    (pre : list EnvFragment) (bad : Decoded) (rest : list Decoded) :
  os_ReadFile fs fpath = Some data →
  yaml_Decoder data = (DocFragment <$> pre) ++ bad :: rest →
  Forall (λ f, validateFragment SystemEnv InnerComponentEnv
                 (with_source fpath f) = None) pre →
  (bad = DocError
   ∨ ∃ f, bad = DocFragment f
          ∧ is_Some (validateFragment SystemEnv InnerComponentEnv
                       (with_source fpath f))) →
  let r := FeedFile SystemEnv InnerComponentEnv yaml_Decoder fs fpath e in
  (match bad with
   | DocError => r.1 = Some (ErrParseYAML fpath)
   | DocFragment f =>
       ∃ err, validateFragment SystemEnv InnerComponentEnv
                (with_source fpath f) = Some err
              ∧ r.1 = Some (ErrValidation (Name f) fpath err)
   end)
  ∧ fragments r.2 = fragments e ++ (with_source fpath <$> pre)
  ∧ merged r.2 = merged e ∧ keySources r.2 = keySources e
  ∧ sorted r.2 = sorted e ∧ ctime r.2 = ctime e.
Proof.
  intros Hread Hdocs Hpre Hbad. cbn zeta.
  unfold FeedFile. rewrite Hread, Hdocs.
  rewrite (feed_documents_valid _ _ _ _ _ _ Hpre).
  destruct Hbad as [->|(f & -> & [err Herr])].
  - done.
  - cbn [feed_documents]. rewrite Herr. cbn [fst snd fragments].
    split; [|done]. by exists err.
Qed.

Lemma FeedFile_not_atomic_witness :
  let fs := writableFS {[ "user.yaml" := "three documents" ]} in
  let r := FeedFile exampleSystemEnv exampleInnerEnv partial_Decoder fs
             "user.yaml" newManager in
  r.1 = Some (ErrValidation "user_service" "user.yaml"
                (ErrCustomPriority "user_service" 5))
  ∧ fragments r.2 = [with_source "user.yaml" customFrag].
Proof.
  intros fs r.
  destruct (FeedFile_not_atomic exampleSystemEnv exampleInnerEnv
              partial_Decoder fs "user.yaml" "three documents" newManager
              [customFrag] (DocFragment lowPriorityFrag)
              [DocFragment innerFrag])
    as ((err & Herr & Hr) & Hfrags & _).
  - reflexivity.
  - reflexivity.
  - repeat constructor.
  - right. exists lowPriorityFrag. split; [reflexivity|].
    exists (ErrCustomPriority "user_service" 5). reflexivity.
  - split; [|exact Hfrags].
    fold r in Hr. rewrite Hr. vm_compute in Herr.
    injection Herr as <-. reflexivity.
Defined.



(** C9: the manager of the reload scenario is merged and holds [PATH]
    in [merged] from its earlier merge.  Saved, loaded into a fresh
    manager and merged again, it gives back the same fragments and the
    same [keySources], and a [merged] without [PATH]: the round trip
    does not return the [merged] it started from. *)
Theorem roundtrip_drops_stale_key
    (format_RFC3339 : Time → string) (parse_RFC3339 : string → option Time)
    (yaml_Marshal : dumpStruct → option string)
    (yaml_Unmarshal : string → option dumpStruct)
    (ord1 ord2 ord3 ord4 : RangeOrder) (now1 now2 now3 now4 : Time)
    (data : string) :
  let e := reloadedManager parse_RFC3339 ord1 ord2 now1 now2 in
  yaml_Marshal (dump_of format_RFC3339 e) = Some data →
  yaml_Unmarshal data = Some (dump_of format_RFC3339 e) →
  let saved := SaveAllYaml format_RFC3339 yaml_Marshal e (writableFS ∅)
                 "all.yaml" in
  let loaded := LoadAllYaml parse_RFC3339 yaml_Unmarshal ord3 now3 saved.2
                  "all.yaml" newManager in
  let again := SortAndMerge ord4 now4 loaded.2 in
  sorted e = true ∧ saved.1 = None ∧ loaded.1 = None
  ∧ fragments again = fragments e
  ∧ keySources again = keySources e
  ∧ merged_map e !! "PATH" = Some "/usr/local/bin:/usr/bin"
  ∧ merged_map loaded.2 !! "PATH" = None
  ∧ merged_map again !! "PATH" = None
  ∧ merged again ≠ merged e.
Proof.
  intros e Hm Hu saved loaded again.
  assert (fragments e = [customFrag]) as Hfr by reflexivity.
  assert (keySources e
          = keySources (SortAndMerge ord4 now4
                          {| fragments := [customFrag]; merged := None;
                             keySources := ∅; sorted := false;
                             ctime := 0 |})) as Hks.
  { apply map_eq. intros k. rewrite SortAndMerge_keySources.
    unfold e, reloadedManager, LoadAllYaml.
    change (os_ReadFile scenarioFS "state.yaml")
      with (Some "fragments: [name: user_service]").
    cbn iota.
    change (scenario_Unmarshal "fragments: [name: user_service]")
      with (Some {| Sorted_ := true; CTime := "2024-05-01T10:00:00Z";
                    Fragments := [Some customFrag] |}).
    cbn iota. cbn [snd Fragments deref_all].
    by rewrite SortAndMerge_keySources. }
  destruct (reload_scenario parse_RFC3339 ord1 ord2 now1 now2)
    as (_ & _ & _ & _ & Hpath & _).
  fold (reloadedManager parse_RFC3339 ord1 ord2 now1 now2) in Hpath.
  fold e in Hpath.
  destruct (SaveAllYaml_file format_RFC3339 yaml_Marshal e (writableFS ∅)
              "all.yaml" data Hm eq_refl) as [Hsaved Hread].
  fold saved in Hsaved, Hread.
  destruct (LoadAllYaml_merges parse_RFC3339 yaml_Unmarshal ord3 now3
              saved.2 "all.yaml" data _ (fragments e) newManager Hread Hu
              eq_refl)
    as (Hloaded & _ & Hlfr & Hlm & Hlks).
  fold loaded in Hloaded, Hlfr, Hlm, Hlks.
  rewrite Hfr in Hlfr, Hlm, Hlks.
  assert (fragments again = [customFrag]) as Hafr.
  { unfold again. by rewrite SortAndMerge_fragments, Hlfr. }
  assert (merged_map loaded.2 !! "PATH" = None) as Hlpath.
  { by rewrite Hlm. }
  assert (merged_map again !! "PATH" = None) as Hapath.
  { unfold again. rewrite SortAndMerge_merged, Hlfr, Hlpath. done. }
  split; [reflexivity|]. split; [exact Hsaved|]. split; [exact Hloaded|].
  split; [by rewrite Hafr, Hfr|]. split; [|split; [exact Hpath|]].
  - rewrite Hks. apply map_eq. intros k. unfold again.
    by rewrite !SortAndMerge_keySources, Hlfr.
  - split; [exact Hlpath|]. split; [exact Hapath|].
    intros Heq. unfold merged_map in Hapath, Hpath.
    rewrite Heq, Hpath in Hapath. done.
Qed.

Lemma roundtrip_drops_stale_key_witness :
  let format := λ _ : Time, "2024-05-01T10:00:00Z" in
  let parse := λ _ : string, Some 0 in
  let e := reloadedManager parse canonical_order canonical_order 1 2 in
  let marshal := λ _ : dumpStruct, Some "saved state" in
  let unmarshal := λ _ : string, Some (dump_of format e) in
  let loaded := LoadAllYaml parse unmarshal canonical_order 3
                  (SaveAllYaml format marshal e (writableFS ∅) "all.yaml").2
                  "all.yaml" newManager in
  marshal (dump_of format e) = Some "saved state"
  ∧ unmarshal "saved state" = Some (dump_of format e)
  ∧ merged_map e !! "PATH" = Some "/usr/local/bin:/usr/bin"
  ∧ merged_map (SortAndMerge canonical_order 4 loaded.2) !! "PATH" = None.
Proof.
  intros format parse e marshal unmarshal loaded.
  split; [reflexivity|]. split; [reflexivity|].
  destruct (roundtrip_drops_stale_key format parse marshal unmarshal
              canonical_order canonical_order canonical_order canonical_order
              1 2 3 4 "saved state" eq_refl eq_refl)
    as (_ & _ & _ & _ & _ & Hpath & _ & Hagain & _).
  split; [exact Hpath|exact Hagain].
Defined.

(** * Further properties of the package *)

(** ** validateFragment *)

(** The fragments the validation lets through. *)
Lemma validateFragment_None_iff
    (SystemEnv InnerComponentEnv : gmap string Z) (frag : EnvFragment) :
  validateFragment SystemEnv InnerComponentEnv frag = None
  ↔ Name frag ≠ EmptyString
    ∧ accepted (classify SystemEnv InnerComponentEnv (Name frag))
        (Priority frag).
Proof.
  unfold validateFragment, classify, accepted.
  destruct (String.eqb_spec (Name frag) EmptyString) as [Hn|Hn].
  { split; [done|]. by intros [? _]. }
  destruct (0 <? default 0 (SystemEnv !! Name frag)).
  { destruct (Z.ltb_spec 19 (Priority frag)); split;
      try done; try (intros [_ ?]; lia); by split; [|lia]. }
  destruct (0 <? default 0 (InnerComponentEnv !! Name frag)).
  { destruct (Z.ltb_spec (Priority frag) 20),
      (Z.ltb_spec 99 (Priority frag)); cbn [orb]; split;
      try done; try (intros [_ ?]; lia); by split; [|lia]. }
  destruct (Z.ltb_spec (Priority frag) 100); split;
    try done; try (intros [_ ?]; lia); by split; [|lia].
Qed.

(** X1: validateFragment lets a fragment through exactly when it has a
    name and its priority is at most 19 for a system name, between 20
    and 99 for an internal-component name, and at least 100 for any
    other name. *)
Theorem validateFragment_accepts_iff
    (SystemEnv InnerComponentEnv : gmap string Z) (frag : EnvFragment) :
  validateFragment SystemEnv InnerComponentEnv frag = None
  ↔ Name frag ≠ EmptyString
    ∧ accepted (classify SystemEnv InnerComponentEnv (Name frag))
        (Priority frag).
Proof. apply validateFragment_None_iff. Qed.

(** X2: the name is checked first: a fragment without a name gets the
    missing-name error whatever the tables and its priority say; every
    other refusal is a priority error that carries the fragment's name
    and priority. *)
Theorem validateFragment_errors
    (SystemEnv InnerComponentEnv : gmap string Z) (frag : EnvFragment) :
  (Name frag = EmptyString →
     validateFragment SystemEnv InnerComponentEnv frag = Some ErrNoName)
  ∧ (∀ err, validateFragment SystemEnv InnerComponentEnv frag = Some err →
       Name frag ≠ EmptyString →
       kind_of err = PriorityOutOfRange
       ∧ err = match classify SystemEnv InnerComponentEnv (Name frag) with
               | System => ErrSystemPriority (Name frag) (Priority frag)
               | Internal => ErrInternalPriority (Name frag) (Priority frag)
               | Custom => ErrCustomPriority (Name frag) (Priority frag)
               end).
Proof.
  unfold validateFragment, classify. split.
  - intros ->. done.
  - intros err Herr Hn. apply String.eqb_neq in Hn. rewrite Hn in Herr.
    destruct (0 <? default 0 (SystemEnv !! Name frag)).
    { destruct (19 <? Priority frag); [|done]. by injection Herr as <-. }
    destruct (0 <? default 0 (InnerComponentEnv !! Name frag)).
    { destruct ((Priority frag <? 20) || (99 <? Priority frag)); [|done].
      by injection Herr as <-. }
    destruct (Priority frag <? 100); [|done]. by injection Herr as <-.
Qed.

Lemma table_member (table : gmap string Z) (name : string) :
  ((0 <? default 0 (table !! name)) = true
   ↔ ∃ n, table !! name = Some n ∧ 0 < n)
  ∧ ((0 <? default 0 (table !! name)) = false
     ↔ ∀ n, table !! name = Some n → n ≤ 0).
Proof.
  destruct (table !! name) as [a|]; cbn [default from_option id].
  - destruct (Z.ltb_spec 0 a); split; split; try done.
    + intros _. by exists a.
    + intros Hall. specialize (Hall a eq_refl). lia.
    + intros (n & [= <-] & ?). lia.
    + intros _ n [= <-]. done.
  - split; split; try done. by intros (n & ? & _).
Qed.

(** X3: validateFragment reads membership in a table as a positive
    entry.  A name with a positive SystemEnv entry is held to the
    system bound even when InnerComponentEnv lists it too; a name
    whose SystemEnv entry is missing, zero or negative and whose
    InnerComponentEnv entry is positive is held to the internal range;
    a name whose entries are all missing, zero or negative is held to
    the custom bound. *)
Theorem validateFragment_table_entries
    (SystemEnv InnerComponentEnv : gmap string Z) (frag : EnvFragment) :
  Name frag ≠ EmptyString →
  (∀ n, SystemEnv !! Name frag = Some n → 0 < n →
     (validateFragment SystemEnv InnerComponentEnv frag = None
      ↔ Priority frag ≤ 19))
  ∧ (∀ n, (∀ m, SystemEnv !! Name frag = Some m → m ≤ 0) →
       InnerComponentEnv !! Name frag = Some n → 0 < n →
       (validateFragment SystemEnv InnerComponentEnv frag = None
        ↔ 20 ≤ Priority frag ≤ 99))
  ∧ ((∀ m, SystemEnv !! Name frag = Some m → m ≤ 0) →
     (∀ m, InnerComponentEnv !! Name frag = Some m → m ≤ 0) →
     (validateFragment SystemEnv InnerComponentEnv frag = None
      ↔ 100 ≤ Priority frag)).
Proof.
  intros Hname.
  destruct (table_member SystemEnv (Name frag)) as [Hs1 Hs0].
  destruct (table_member InnerComponentEnv (Name frag)) as [Hi1 Hi0].
  apply String.eqb_neq in Hname.
  unfold validateFragment. rewrite Hname.
  split; [|split].
  - intros n Hn Hpos.
    rewrite (proj2 Hs1 (ex_intro _ n (conj Hn Hpos))).
    destruct (Z.ltb_spec 19 (Priority frag)); split; (done || lia).
  - intros n Hsys Hn Hpos.
    rewrite (proj2 Hs0 Hsys), (proj2 Hi1 (ex_intro _ n (conj Hn Hpos))).
    destruct (Z.ltb_spec (Priority frag) 20),
      (Z.ltb_spec 99 (Priority frag)); cbn [orb]; split; (done || lia).
  - intros Hsys Hinner. rewrite (proj2 Hs0 Hsys), (proj2 Hi0 Hinner).
    destruct (Z.ltb_spec (Priority frag) 100); split; (done || lia).
Qed.

Lemma validateFragment_table_entries_witness :
  let legacy := {| Name := "legacy_base"; Priority := 150; Env := ∅;
                   Scripts := []; Source := EmptyString |} in
  let shared := {| Name := "shared"; Priority := 50; Env := ∅;
                   Scripts := []; Source := EmptyString |} in
  Name legacy ≠ EmptyString
  ∧ legacySystemEnv !! "legacy_base" = Some 0
  ∧ validateFragment legacySystemEnv legacyInnerEnv legacy = None
  ∧ legacyInnerEnv !! "shared" = Some 5
  ∧ validateFragment legacySystemEnv legacyInnerEnv shared
    = Some (ErrSystemPriority "shared" 50).
Proof.
  intros legacy shared.
  assert (Name legacy ≠ EmptyString) as Hname by discriminate.
  split; [exact Hname|]. split; [reflexivity|].
  split; [|split; reflexivity].
  destruct (validateFragment_table_entries legacySystemEnv legacyInnerEnv
              legacy Hname) as (_ & _ & Hcustom).
  apply Hcustom.
  - intros m Hm. vm_compute in Hm. injection Hm as <-. lia.
  - intros m Hm. vm_compute in Hm. discriminate Hm.
  - cbn. lia.
Defined.

(** ** FeedFile and FeedDir *)

Section FeedFacts.
Variables SystemEnv InnerComponentEnv : gmap string Z.
Variable yaml_Decoder : string → list Decoded.

Local Abbreviation validate := (validateFragment SystemEnv InnerComponentEnv).
Local Abbreviation feed := (feed_documents SystemEnv InnerComponentEnv).
Local Abbreviation prefix_of := (accepted_prefix SystemEnv InnerComponentEnv).
Local Abbreviation feed_file :=
  (FeedFile SystemEnv InnerComponentEnv yaml_Decoder).

(** Validation does not look at the source of a fragment. *)
Lemma validate_with_source fpath frag :
  validate (with_source fpath frag) = validate frag.
Proof. done. Qed.

Lemma feed_documents_spec fpath docs frags :
  (feed fpath docs frags).2 = frags ++ prefix_of fpath docs
  ∧ ((feed fpath docs frags).1 = None
     ↔ Forall (λ d, ∃ f, d = DocFragment f
                         ∧ validate (with_source fpath f) = None) docs).
Proof.
  revert frags. induction docs as [|[f|] docs IH]; intros frags.
  - cbn. rewrite app_nil_r. split; [done|]. split; [constructor|done].
  - cbn [feed_documents accepted_prefix].
    destruct (validate (with_source fpath f)) as [err|] eqn:Hv.
    + cbn [fst snd]. rewrite app_nil_r. split; [done|].
      split; [done|]. intros Hall. apply Forall_cons in Hall as [Hd _].
      destruct Hd as (g & [= <-] & Hg). congruence.
    + destruct (IH (frags ++ [with_source fpath f])) as [IH2 IH1].
      rewrite IH2, <- app_assoc. split; [done|].
      rewrite IH1, Forall_cons. split; [|by intros [_ ?]].
      intros Hall. split; [by exists f|done].
  - cbn. rewrite app_nil_r. split; [done|]. split; [done|].
    intros Hall. apply Forall_cons in Hall as [(g & [=] & _) _].
Qed.

Lemma accepted_prefix_valid fpath docs :
  Forall (λ f, validate f = None ∧ Source f = fpath) (prefix_of fpath docs).
Proof.
  induction docs as [|[f|] docs IH]; cbn [accepted_prefix]; [done| |done].
  destruct (validate (with_source fpath f)) eqn:Hv; [done|].
  constructor; [by split|done].
Qed.

(** What every call of FeedFile does to the manager. *)
Lemma FeedFile_appends fs fpath e :
  ∃ added,
    (feed_file fs fpath e).2 = with_more added e
    ∧ Forall (λ f, validate f = None ∧ Source f = fpath) added.
Proof.
  unfold FeedFile. destruct (os_ReadFile fs fpath) as [data|].
  - exists (prefix_of fpath (yaml_Decoder data)). cbn [snd].
    destruct (feed_documents_spec fpath (yaml_Decoder data) (fragments e))
      as [-> _].
    split; [done|apply accepted_prefix_valid].
  - exists []. cbn [snd]. split; [|done].
    unfold with_more. rewrite app_nil_r. by destruct e.
Qed.
End FeedFacts.

(** X4: FeedFile on a readable file stores the fragments of the
    documents in front of the first one that fails to parse or to
    validate, each with the file as its source, and returns nil exactly
    when every document is a fragment that passes validation. *)
Theorem FeedFile_stores_accepted_prefix
    (SystemEnv InnerComponentEnv : gmap string Z)
    (yaml_Decoder : string → list Decoded)
    (fs : FS) (fpath data : string) (e : EnvManager) :
  os_ReadFile fs fpath = Some data →
  let r := FeedFile SystemEnv InnerComponentEnv yaml_Decoder fs fpath e in
  fragments r.2
  = fragments e
    ++ accepted_prefix SystemEnv InnerComponentEnv fpath (yaml_Decoder data)
  ∧ (r.1 = None
     ↔ Forall (λ d, ∃ f, d = DocFragment f
                         ∧ validateFragment SystemEnv InnerComponentEnv f
                           = None) (yaml_Decoder data))
  ∧ (∀ frags, yaml_Decoder data = DocFragment <$> frags → r.1 = None →
       fragments r.2 = fragments e ++ (with_source fpath <$> frags)).
Proof.
  intros Hread r.
  destruct (feed_documents_spec SystemEnv InnerComponentEnv fpath
              (yaml_Decoder data) (fragments e)) as [Hfr Hnil].
  assert (r.1 = None
          ↔ Forall (λ d, ∃ f, d = DocFragment f
                              ∧ validateFragment SystemEnv InnerComponentEnv
                                  (with_source fpath f) = None)
              (yaml_Decoder data)) as Hr.
  { unfold r, FeedFile. rewrite Hread. exact Hnil. }
  assert (fragments r.2
          = fragments e
            ++ accepted_prefix SystemEnv InnerComponentEnv fpath
                 (yaml_Decoder data)) as Hfrags.
  { unfold r, FeedFile. rewrite Hread. exact Hfr. }
  split; [exact Hfrags|]. split; [exact Hr|].
  intros frags Hdocs Hok. rewrite Hfrags. f_equal.
  apply Hr in Hok. rewrite Hdocs in Hok |- *. clear -Hok.
  induction frags as [|f frags IH]; [done|].
  rewrite fmap_cons in Hok. apply Forall_cons in Hok as [(g & [= <-] & Hg) Hok].
  rewrite !fmap_cons. cbn [accepted_prefix]. rewrite Hg. f_equal. by apply IH.
Qed.

Lemma FeedFile_stores_accepted_prefix_witness :
  let fs := writableFS {[ "user.yaml" := "three documents" ]} in
  let r := FeedFile exampleSystemEnv exampleInnerEnv partial_Decoder fs
             "user.yaml" exampleManager in
  os_ReadFile fs "user.yaml" = Some "three documents"
  ∧ fragments r.2
    = [customFrag; innerFrag; systemFrag;
       with_source "user.yaml" customFrag].
Proof.
  intros fs r. split; [reflexivity|].
  destruct (FeedFile_stores_accepted_prefix exampleSystemEnv exampleInnerEnv
              partial_Decoder fs "user.yaml" "three documents"
              exampleManager eq_refl) as (Hfr & _).
  exact Hfr.
Defined.

(** X5: whatever FeedFile returns, it only appends to the store: the
    earlier fragments stay in place, every fragment added passed
    validation and has the file as its source, and [merged],
    [keySources], [sorted] and [ctime] are untouched; when the file
    cannot be read, nothing is added. *)
Theorem FeedFile_only_appends
    (SystemEnv InnerComponentEnv : gmap string Z)
    (yaml_Decoder : string → list Decoded)
    (fs : FS) (fpath : string) (e : EnvManager) :
  let r := FeedFile SystemEnv InnerComponentEnv yaml_Decoder fs fpath e in
  (∃ added,
     fragments r.2 = fragments e ++ added
     ∧ Forall (λ f, validateFragment SystemEnv InnerComponentEnv f = None
                    ∧ Source f = fpath) added)
  ∧ merged r.2 = merged e ∧ keySources r.2 = keySources e
  ∧ sorted r.2 = sorted e ∧ ctime r.2 = ctime e
  ∧ (os_ReadFile fs fpath = None → r = (Some (ErrReadFile fpath), e)).
Proof.
  intros r.
  destruct (FeedFile_appends SystemEnv InnerComponentEnv yaml_Decoder
              fs fpath e) as (added & Hr & Hadded).
  fold r in Hr. rewrite Hr. cbn [with_more fragments merged keySources
                                   sorted ctime].
  split; [by exists added|]. repeat split.
  intros Hread. unfold r, FeedFile. by rewrite Hread.
Qed.

(** *** strings.HasSuffix *)

Lemma string_length_app (s t : string) :
  String.length (s +:+ t) = (String.length s + String.length t)%nat.
Proof.
  induction s as [|c s IH]; [done|].
  change (S (String.length (s +:+ t))
          = S (String.length s + String.length t)). by rewrite IH.
Qed.

Lemma substring_all (s : string) : substring 0 (String.length s) s = s.
Proof. induction s as [|c s IH]; [done|]. cbn. by rewrite IH. Qed.

Lemma substring_app_r (s t : string) :
  substring (String.length s) (String.length t) (s +:+ t) = t.
Proof.
  induction s as [|c s IH]; [apply substring_all|].
  change (substring (String.length s) (String.length t) (s +:+ t) = t).
  exact IH.
Qed.

Lemma substring_split (k : nat) (s : string) :
  (k ≤ String.length s)%nat →
  s = substring 0 k s +:+ substring k (String.length s - k) s.
Proof.
  revert k. induction s as [|c s IH]; intros k Hk.
  - cbn in Hk. assert (k = 0%nat) as -> by lia. done.
  - destruct k as [|k].
    + cbn [substring]. rewrite Nat.sub_0_r.
      change (String c s = substring 0 (String.length (String c s))
                             (String c s)).
      by rewrite substring_all.
    + cbn in Hk.
      change (String c s
              = String c (substring 0 k s
                          +:+ substring k (String.length s - k) s)).
      f_equal. apply IH. lia.
Qed.

Lemma HasSuffix_spec (s suffix : string) :
  HasSuffix s suffix = true ↔ ∃ stem, s = stem +:+ suffix.
Proof.
  unfold HasSuffix. rewrite andb_true_iff, Nat.leb_le, String.eqb_eq. split.
  - intros [Hlen Hsub]. exists (substring 0 (String.length s
                                              - String.length suffix) s).
    pose proof (substring_split (String.length s - String.length suffix) s)
      as Hs.
    replace (String.length s - (String.length s - String.length suffix))%nat
      with (String.length suffix) in Hs by lia.
    rewrite Hsub in Hs. apply Hs. lia.
  - intros [stem ->]. rewrite string_length_app. split; [lia|].
    replace (String.length stem + String.length suffix
             - String.length suffix)%nat
      with (String.length stem) by lia.
    apply substring_app_r.
Qed.

(** *** FeedDir *)

Section FeedDirFacts.
Variables SystemEnv InnerComponentEnv : gmap string Z.
Variable yaml_Decoder : string → list Decoded.
Variable os_ReadDir : string → option (list DirEntry).
Variable filepath_Join : string → string → string.

Local Abbreviation validate := (validateFragment SystemEnv InnerComponentEnv).
Local Abbreviation feed_file :=
  (FeedFile SystemEnv InnerComponentEnv yaml_Decoder).
Local Abbreviation feed_all :=
  (feed_files SystemEnv InnerComponentEnv yaml_Decoder).
Local Abbreviation feed_dir :=
  (feed_entries SystemEnv InnerComponentEnv yaml_Decoder filepath_Join).

Lemma feed_entries_yaml_files fs dir entries e :
  feed_dir fs dir entries e
  = feed_all fs (filepath_Join dir <$> yaml_files entries) e.
Proof.
  revert e. induction entries as [|file entries IH]; intros e; [done|].
  unfold yaml_files in *. cbn [feed_entries List.filter]. unfold skipped at 1.
  destruct (entry_IsDir file); cbn [orb negb]; [apply IH|].
  destruct (negb (HasSuffix (entry_Name file) ".yaml")
            && negb (HasSuffix (entry_Name file) ".yml")); cbn [negb];
    [apply IH|].
  rewrite !fmap_cons. cbn [feed_files].
  destruct (feed_file fs _ e).1; [done|]. apply IH.
Qed.

Lemma feed_files_app fs paths1 paths2 e :
  feed_all fs (paths1 ++ paths2) e
  = match (feed_all fs paths1 e).1 with
    | Some err => feed_all fs paths1 e
    | None => feed_all fs paths2 (feed_all fs paths1 e).2
    end.
Proof.
  revert e. induction paths1 as [|p paths1 IH]; intros e; [done|].
  cbn [app feed_files].
  destruct (feed_file fs p e).1 eqn:Hp; [done|]. apply IH.
Qed.

Lemma feed_files_appends fs paths e :
  ∃ added,
    (feed_all fs paths e).2 = with_more added e
    ∧ Forall (λ f, validate f = None) added.
Proof.
  revert e. induction paths as [|p paths IH]; intros e.
  - exists []. split; [|done]. unfold with_more. cbn.
    rewrite app_nil_r. by destruct e.
  - cbn [feed_files].
    destruct (FeedFile_appends SystemEnv InnerComponentEnv yaml_Decoder
                fs p e) as (added1 & Hp & Hv1).
    assert (Forall (λ f, validate f = None) added1) as Hv1'.
    { eapply Forall_impl; [exact Hv1|]. by intros f [? _]. }
    destruct (feed_file fs p e).1.
    + exists added1. by split.
    + destruct (IH (feed_file fs p e).2) as (added2 & Hrest & Hv2).
      exists (added1 ++ added2). rewrite Hrest, Hp. split.
      * unfold with_more. cbn. by rewrite app_assoc.
      * by apply Forall_app.
Qed.
End FeedDirFacts.

(** X6: FeedDir feeds exactly the entries of the directory that are not
    directories and whose name ends in [.yaml] or [.yml], in the order
    of the listing, each under its joined path, and stops at the first
    file FeedFile fails on; a directory that cannot be listed is an
    error and leaves the manager as it was. *)
Theorem FeedDir_feeds_yaml_files
    (SystemEnv InnerComponentEnv : gmap string Z)
    (yaml_Decoder : string → list Decoded)
    (os_ReadDir : string → option (list DirEntry))
    (filepath_Join : string → string → string)
    (fs : FS) (dir : string) (e : EnvManager) :
  match os_ReadDir dir with
  | None =>
      FeedDir SystemEnv InnerComponentEnv yaml_Decoder os_ReadDir
        filepath_Join fs dir e = (Some (ErrReadFile dir), e)
  | Some entries =>
      FeedDir SystemEnv InnerComponentEnv yaml_Decoder os_ReadDir
        filepath_Join fs dir e
      = feed_files SystemEnv InnerComponentEnv yaml_Decoder fs
          (filepath_Join dir <$> yaml_files entries) e
      ∧ (∀ name, name ∈ yaml_files entries ↔
           ∃ file, file ∈ entries ∧ entry_Name file = name
                   ∧ entry_IsDir file = false
                   ∧ ∃ stem, name = stem +:+ ".yaml"
                             ∨ name = stem +:+ ".yml")
  end.
Proof.
  unfold FeedDir. destruct (os_ReadDir dir) as [entries|]; [|done].
  split; [apply feed_entries_yaml_files|].
  intros name. unfold yaml_files. rewrite list_elem_of_fmap.
  assert (∀ file, negb (skipped file) = true
                  ↔ entry_IsDir file = false
                    ∧ ∃ stem, entry_Name file = stem +:+ ".yaml"
                              ∨ entry_Name file = stem +:+ ".yml") as Hkeep.
  { intros file. unfold skipped.
    rewrite negb_true_iff, orb_false_iff, andb_false_iff, !negb_false_iff.
    rewrite !HasSuffix_spec. split.
    - intros [Hd [[stem Hs]|[stem Hs]]]; (split; [done|]); exists stem; auto.
    - intros [Hd [stem [Hs|Hs]]]; (split; [done|]);
        [left|right]; by exists stem. }
  split.
  - intros (file & -> & Hin).
    apply list_elem_of_In, List.filter_In in Hin as [Hin Hk].
    apply Hkeep in Hk as [Hd Hs]. exists file.
    split; [by apply list_elem_of_In|]. done.
  - intros (file & Hin & <- & Hd & Hs). exists file. split; [done|].
    apply list_elem_of_In, List.filter_In. split.
    + by apply list_elem_of_In.
    + by apply Hkeep.
Qed.

(** The example listing: the note and the sub-directory are passed
    over. *)
Example yaml_files_exampleListing :
  yaml_files exampleListing = ["10-system.yaml"; "90-user.yml"].
Proof. reflexivity. Qed.

(** X7: whatever FeedDir returns, it only appends to the store
    fragments that passed validation, and leaves [merged],
    [keySources], [sorted] and [ctime] alone. *)
Theorem FeedDir_only_appends
    (SystemEnv InnerComponentEnv : gmap string Z)
    (yaml_Decoder : string → list Decoded)
    (os_ReadDir : string → option (list DirEntry))
    (filepath_Join : string → string → string)
    (fs : FS) (dir : string) (e : EnvManager) :
  let r := FeedDir SystemEnv InnerComponentEnv yaml_Decoder os_ReadDir
             filepath_Join fs dir e in
  (∃ added,
     fragments r.2 = fragments e ++ added
     ∧ Forall (λ f, validateFragment SystemEnv InnerComponentEnv f = None)
         added)
  ∧ merged r.2 = merged e ∧ keySources r.2 = keySources e
  ∧ sorted r.2 = sorted e ∧ ctime r.2 = ctime e.
Proof.
  intros r. unfold r, FeedDir.
  destruct (os_ReadDir dir) as [entries|].
  - rewrite feed_entries_yaml_files.
    destruct (feed_files_appends SystemEnv InnerComponentEnv yaml_Decoder fs
                (filepath_Join dir <$> yaml_files entries) e)
      as (added & -> & Hv).
    split; [by exists added|done].
  - cbn [snd]. split; [|done]. exists []. by rewrite app_nil_r.
Qed.

(** X8: FeedDir stops at the first file that fails.  When the files in
    front of it feed without error and FeedFile fails on it, FeedDir
    returns that error; the manager holds what those files and the
    failing call stored, and the files after it are not read. *)
Theorem FeedDir_stops_at_first_error
    (SystemEnv InnerComponentEnv : gmap string Z)
    (yaml_Decoder : string → list Decoded)
    (os_ReadDir : string → option (list DirEntry))
    (filepath_Join : string → string → string)
    (fs : FS) (dir : string) (e : EnvManager)
    (entries : list DirEntry) (before after : list string) (bad : string)
    (err : error) :
  os_ReadDir dir = Some entries →
  yaml_files entries = before ++ bad :: after →
  let r1 := feed_files SystemEnv InnerComponentEnv yaml_Decoder fs
              (filepath_Join dir <$> before) e in
  let r2 := FeedFile SystemEnv InnerComponentEnv yaml_Decoder fs
              (filepath_Join dir bad) r1.2 in
  r1.1 = None → r2.1 = Some err →
  FeedDir SystemEnv InnerComponentEnv yaml_Decoder os_ReadDir filepath_Join
    fs dir e = (Some err, r2.2).
Proof.
  intros Hdir Hfiles r1 r2 H1 H2. unfold FeedDir. rewrite Hdir.
  rewrite feed_entries_yaml_files, Hfiles, fmap_app, fmap_cons.
  rewrite feed_files_app. fold r1. rewrite H1. cbn [feed_files].
  fold r2. by rewrite H2.
Qed.

Lemma FeedDir_stops_at_first_error_witness :
  let r := FeedDir exampleSystemEnv exampleInnerEnv scenario_Decoder
             (λ _, Some exampleListing) join_path directoryFS "env"
             newManager in
  yaml_files exampleListing = ["10-system.yaml"] ++ "90-user.yml" :: []
  ∧ r.1 = Some (ErrParseYAML "env/90-user.yml")
  ∧ fragments r.2 = [with_source "env/10-system.yaml" systemFrag].
Proof.
  intros r. split; [reflexivity|].
  pose proof (FeedDir_stops_at_first_error exampleSystemEnv exampleInnerEnv
                scenario_Decoder (λ _, Some exampleListing) join_path
                directoryFS "env" newManager exampleListing
                ["10-system.yaml"] [] "90-user.yml"
                (ErrParseYAML "env/90-user.yml")
                eq_refl eq_refl eq_refl eq_refl) as Hr.
  fold r in Hr. rewrite Hr. split; reflexivity.
Defined.

(** ** What a merge establishes *)

#[local] Instance prio_le_trans : Transitive prio_le.
Proof. unfold prio_le. intros x y z ? ?. lia. Qed.

Lemma contributors_nil_iff k frags :
  contributors k frags = [] ↔ Forall (λ f, Env f !! k = None) frags.
Proof.
  split; [|apply contributors_nil].
  induction frags as [|f frags IH]; [done|].
  unfold contributors in *. cbn [List.filter]. unfold defines at 1.
  destruct (Env f !! k) eqn:Hf; [done|].
  intros Hnil. constructor; [done|by apply IH].
Qed.

Lemma Forall_defines_perm k (l l' : list EnvFragment) :
  l ≡ₚ l' →
  Forall (λ f, Env f !! k = None) l ↔ Forall (λ f, Env f !! k = None) l'.
Proof. intros Hp. by rewrite Hp. Qed.

Lemma last_value_sort_None k frags :
  last_value k (sort_SliceStable frags) = None
  ↔ Forall (λ f, Env f !! k = None) frags.
Proof.
  rewrite last_value_None.
  apply Forall_defines_perm, sort_SliceStable_perm.
Qed.

(** The value of a key comes from a fragment of the list. *)
Lemma last_value_Some k frags v :
  last_value k frags = Some v → ∃ f, f ∈ frags ∧ Env f !! k = Some v.
Proof.
  induction frags as [|f frags IH]; [done|].
  cbn [last_value]. destruct (last_value k frags) as [w|].
  - intros [= ->]. destruct IH as (g & Hg & Hv); [done|].
    exists g. split; [by apply list_elem_of_further|done].
  - intros Hf. exists f. split; [apply list_elem_of_here|done].
Qed.

Lemma SortAndMerge_keySources_None ord now e k :
  keySources (SortAndMerge ord now e) !! k = None
  ↔ Forall (λ f, Env f !! k = None) (fragments e).
Proof.
  rewrite SortAndMerge_keySources.
  rewrite <- (Forall_defines_perm k _ _
                (sort_SliceStable_perm (fragments e))).
  rewrite <- contributors_nil_iff.
  by destruct (contributors k (sort_SliceStable (fragments e))).
Qed.

(** X9: after SortAndMerge the manager is marked merged and stamped
    with the current time; a key has a [keySources] chain exactly when
    some fragment defines it, and the chain is then the names of all
    fragments defining the key in their sorted order (so it is never
    empty and has one entry per defining fragment), and [merged] holds
    a value of the key that one of the fragments gave it. *)
Theorem SortAndMerge_provenance
    (ord : RangeOrder) (now : Time) (e : EnvManager) :
  let e' := SortAndMerge ord now e in
  sorted e' = true ∧ ctime e' = now
  ∧ (∀ k, keySources e' !! k = None
          ↔ Forall (λ f, Env f !! k = None) (fragments e))
  ∧ (∀ k names, keySources e' !! k = Some names →
       names = contributors k (fragments e')
       ∧ names ≠ []
       ∧ List.length names
         = List.length (List.filter (defines k) (fragments e))
       ∧ ∃ f v, f ∈ fragments e ∧ Env f !! k = Some v
                ∧ merged_map e' !! k = Some v).
Proof.
  cbn zeta. split; [done|]. split; [done|]. split.
  - intros k. apply SortAndMerge_keySources_None.
  - intros k names. rewrite SortAndMerge_keySources, SortAndMerge_merged.
    rewrite SortAndMerge_fragments.
    destruct (contributors k (sort_SliceStable (fragments e)))
      as [|n ns] eqn:Hc; [done|].
    intros [= <-]. split; [done|]. split; [done|]. split.
    + rewrite <- Hc. unfold contributors. rewrite length_fmap.
      apply filter_length_perm, sort_SliceStable_perm.
    + destruct (last_value k (sort_SliceStable (fragments e)))
        as [v|] eqn:Hl.
      * apply last_value_Some in Hl as (f & Hf & Hv).
        exists f, v. rewrite sort_SliceStable_perm in Hf. done.
      * apply last_value_None, contributors_nil in Hl. congruence.
Qed.

(** X10: on a manager whose [merged] was never filled, SortAndMerge
    makes [merged] exactly the last-writer map of the fragments: it
    holds a key exactly when some fragment defines it, and [merged] and
    [keySources] have the same keys. *)
Theorem SortAndMerge_fresh_exact
    (ord : RangeOrder) (now : Time) (e : EnvManager) :
  merged e = None →
  let e' := SortAndMerge ord now e in
  (∀ k, merged_map e' !! k = last_value k (fragments e'))
  ∧ (∀ k, is_Some (merged_map e' !! k)
          ↔ Exists (λ f, is_Some (Env f !! k)) (fragments e))
  ∧ dom (merged_map e') = dom (keySources e').
Proof.
  intros Hfresh. cbn zeta.
  assert (∀ k, merged_map (SortAndMerge ord now e) !! k
               = last_value k (sort_SliceStable (fragments e))) as Hm.
  { intros k. rewrite SortAndMerge_merged. unfold merged_map at 1.
    rewrite Hfresh. cbn. rewrite lookup_empty.
    by destruct (last_value k _). }
  assert (∀ k, last_value k (sort_SliceStable (fragments e)) = None
               ↔ ¬ Exists (λ f, is_Some (Env f !! k)) (fragments e)) as Hn.
  { intros k. rewrite last_value_sort_None, <- Forall_Exists_neg.
    apply Forall_proper; [|done]. intros f. by rewrite eq_None_not_Some. }
  split; [exact Hm|]. split.
  - intros k. rewrite Hm. rewrite <- not_eq_None_Some, Hn.
    split; [|tauto]. apply dec_stable.
  - apply set_eq. intros k. rewrite !elem_of_dom, Hm.
    rewrite <- !not_eq_None_Some.
    by rewrite last_value_sort_None, SortAndMerge_keySources_None.
Qed.

Lemma SortAndMerge_fresh_exact_witness :
  merged exampleManager = None
  ∧ merged_map (SortAndMerge reverse_order 0 exampleManager) !! "LANG"
    = Some "zh_CN.UTF-8"
  ∧ merged_map (SortAndMerge reverse_order 0 exampleManager) !! "HOME" = None.
Proof.
  split; [reflexivity|].
  destruct (SortAndMerge_fresh_exact reverse_order 0 exampleManager eq_refl)
    as (Hm & _).
  split.
  - exact (Hm "LANG").
  - exact (Hm "HOME").
Defined.

(** ** A sorted list is determined by its priority classes *)

Lemma with_priority_nil p l :
  Forall (λ x, Priority x ≠ p) l → with_priority p l = [].
Proof.
  induction 1 as [|x l Hx _ IH]; [done|].
  unfold with_priority in *. cbn [List.filter].
  destruct (Z.eqb_spec (Priority x) p); [done|exact IH].
Qed.

Lemma with_priority_cons p x l :
  with_priority p (x :: l)
  = if Priority x =? p then x :: with_priority p l else with_priority p l.
Proof. done. Qed.

Lemma with_priority_head_min p x l :
  Sorted prio_le (x :: l) → p < Priority x → with_priority p (x :: l) = [].
Proof.
  intros Hs Hp. apply Sorted_StronglySorted in Hs; [|apply _].
  apply StronglySorted_inv in Hs as [_ Hall].
  apply with_priority_nil. constructor; [lia|].
  eapply Forall_impl; [exact Hall|]. unfold prio_le. intros y ?. lia.
Qed.

Lemma sorted_unique l1 l2 :
  Sorted prio_le l1 → Sorted prio_le l2 →
  (∀ p, with_priority p l1 = with_priority p l2) → l1 = l2.
Proof.
  revert l2. induction l1 as [|x l1 IH]; intros l2 Hs1 Hs2 Heq.
  - destruct l2 as [|y l2]; [done|].
    specialize (Heq (Priority y)). rewrite with_priority_cons in Heq.
    by rewrite Z.eqb_refl in Heq.
  - destruct l2 as [|y l2].
    { specialize (Heq (Priority x)). rewrite with_priority_cons in Heq.
      by rewrite Z.eqb_refl in Heq. }
    destruct (Z.lt_trichotomy (Priority x) (Priority y)) as [Hlt|[Hxy|Hgt]].
    + specialize (Heq (Priority x)).
      rewrite (with_priority_head_min _ y l2 Hs2 Hlt) in Heq.
      rewrite with_priority_cons in Heq. by rewrite Z.eqb_refl in Heq.
    + assert (x = y) as <-.
      { specialize (Heq (Priority x)). rewrite !with_priority_cons in Heq.
        rewrite <- Hxy in Heq. rewrite Z.eqb_refl in Heq. congruence. }
      f_equal. apply IH.
      * by apply Sorted_inv in Hs1 as [? _].
      * by apply Sorted_inv in Hs2 as [? _].
      * intros p. specialize (Heq p). rewrite !with_priority_cons in Heq.
        destruct (Priority x =? p); congruence.
    + specialize (Heq (Priority y)).
      rewrite (with_priority_head_min _ x l1 Hs1 Hgt) in Heq.
      rewrite with_priority_cons in Heq. by rewrite Z.eqb_refl in Heq.
Qed.

(** Sorting first and appending later sorts to the same list as
    appending first. *)
Lemma sort_SliceStable_app_sorted l added :
  sort_SliceStable (sort_SliceStable l ++ added) = sort_SliceStable (l ++ added).
Proof.
  apply sorted_unique; [apply sort_SliceStable_sorted..|].
  intros p. rewrite !sort_SliceStable_with_priority.
  unfold with_priority. rewrite !List.filter_app. f_equal.
  apply sort_SliceStable_with_priority.
Qed.

(** X11: merging, appending further fragments (as FeedFile does) and
    merging again gives the fragment order, [merged] and [keySources]
    of a single merge over all the fragments, when the first merge
    started from a manager whose [merged] was never filled. *)
Theorem SortAndMerge_incremental
    (ord1 ord2 ord3 : RangeOrder) (now1 now2 now3 : Time)
    (e : EnvManager) (added : list EnvFragment) :
  merged e = None →
  let e1 := SortAndMerge ord1 now1 e in
  let e2 := SortAndMerge ord2 now2 (with_more added e1) in
  let scratch := SortAndMerge ord3 now3 (with_more added e) in
  fragments e2 = fragments scratch
  ∧ merged e2 = merged scratch
  ∧ keySources e2 = keySources scratch.
Proof.
  intros Hfresh e1 e2 scratch.
  assert (fragments e2 = fragments scratch) as Hfr.
  { unfold e2, scratch, e1. rewrite !SortAndMerge_fragments.
    cbn [with_more fragments]. rewrite SortAndMerge_fragments.
    apply sort_SliceStable_app_sorted. }
  split; [exact Hfr|].
  unfold e2, scratch in Hfr. rewrite !SortAndMerge_fragments in Hfr.
  split.
  - unfold e2, scratch. rewrite !SortAndMerge_merged_Some. f_equal.
    apply map_eq. intros k. rewrite !SortAndMerge_merged, Hfr.
    destruct (last_value k (sort_SliceStable (fragments (with_more added e))))
      as [v|] eqn:Hl; [done|].
    unfold merged_map at 2. cbn [with_more merged]. rewrite Hfresh.
    cbn. rewrite lookup_empty.
    change (merged_map e1 !! k = None). unfold e1.
    rewrite SortAndMerge_merged. unfold merged_map. rewrite Hfresh.
    cbn. rewrite lookup_empty.
    apply last_value_sort_None in Hl. cbn [with_more fragments] in Hl.
    apply Forall_app in Hl as [Hl _].
    apply last_value_sort_None in Hl. by rewrite Hl.
  - apply map_eq. intros k. unfold e2, scratch.
    by rewrite !SortAndMerge_keySources, Hfr.
Qed.

Lemma SortAndMerge_incremental_witness :
  let e0 := with_more [customFrag] newManager in
  let e1 := SortAndMerge canonical_order 1 e0 in
  let e2 := SortAndMerge reverse_order 2 (with_more [systemFrag; innerFrag] e1) in
  merged e0 = None
  ∧ Name <$> fragments e2
    = ["system_base"; "internal_service"; "user_service"]
  ∧ merged_map e2 !! "APP_HOME" = Some "/home/user/app".
Proof.
  intros e0 e1 e2. split; [reflexivity|].
  destruct (SortAndMerge_incremental canonical_order reverse_order
              canonical_order 1 2 3 e0 [systemFrag; innerFrag] eq_refl)
    as (Hfr & Hm & _).
  fold e1 in Hfr, Hm. fold e2 in Hfr, Hm.
  unfold merged_map. rewrite Hfr, Hm. split; reflexivity.
Defined.

(** ** Tiers and conflicts *)

Lemma accepted_rank t1 t2 p1 p2 :
  accepted t1 p1 → accepted t2 p2 → p1 ≤ p2 →
  (tier_rank t1 ≤ tier_rank t2)%nat.
Proof. destruct t1, t2; cbn; lia. Qed.

(** X12: higher tiers win conflicts.  When every fragment of the store
    passes validation and a fragment defines a key, the merge gives the
    key the value of a fragment (the last name of the key's chain)
    whose priority is not lower and whose tier is not lower: a custom
    fragment's value is only ever replaced by a custom fragment's, an
    internal one's never by a system fragment's. *)
Theorem SortAndMerge_tier_precedence
    (SystemEnv InnerComponentEnv : gmap string Z)
    (ord : RangeOrder) (now : Time) (e : EnvManager)
    (f : EnvFragment) (k v : string) :
  Forall (valid SystemEnv InnerComponentEnv) (fragments e) →
  f ∈ fragments e → Env f !! k = Some v →
  let e' := SortAndMerge ord now e in
  ∃ g w pre,
    g ∈ fragments e ∧ Env g !! k = Some w
    ∧ merged_map e' !! k = Some w
    ∧ keySources e' !! k = Some (pre ++ [Name g])
    ∧ Priority f ≤ Priority g
    ∧ (tier_rank (classify SystemEnv InnerComponentEnv (Name f))
       ≤ tier_rank (classify SystemEnv InnerComponentEnv (Name g)))%nat.
Proof.
  intros Hvalid Hf Hv. cbn zeta.
  destruct (last_definer k (sort_SliceStable (fragments e)))
    as (l1 & g & l2 & w & Hsort & Hg & Hl2).
  { apply Exists_exists. exists f. rewrite sort_SliceStable_perm.
    split; [done|by exists v]. }
  assert (g ∈ fragments e) as Hgin.
  { rewrite <- (sort_SliceStable_perm (fragments e)), Hsort.
    apply elem_of_app. right. apply list_elem_of_here. }
  assert (Priority f ≤ Priority g) as Hle.
  { assert (f ∈ l1 ++ g :: l2) as Hin.
    { by rewrite <- Hsort, sort_SliceStable_perm. }
    pose proof (sort_SliceStable_sorted (fragments e)) as Hs.
    rewrite Hsort in Hs. apply Sorted_StronglySorted in Hs; [|apply _].
    apply elem_of_app in Hin as [Hin|Hin].
    - apply (StronglySorted_app_1_elem_of prio_le l1 (g :: l2) f g Hs Hin).
      apply list_elem_of_here.
    - apply elem_of_cons in Hin as [->|Hin]; [lia|].
      rewrite Forall_forall in Hl2. rewrite (Hl2 f Hin) in Hv. done. }
  exists g, w, (contributors k l1).
  split; [done|]. split; [done|].
  rewrite SortAndMerge_merged, SortAndMerge_keySources, Hsort.
  rewrite last_value_app. cbn [last_value].
  rewrite (proj2 (last_value_None k l2) Hl2), Hg. split; [done|].
  split.
  - change (g :: l2) with ([g] ++ l2).
    rewrite !contributors_app, (contributors_nil k l2 Hl2), app_nil_r.
    unfold contributors at 2. cbn [List.filter]. unfold defines.
    rewrite Hg. cbn [fmap list_fmap].
    by destruct (contributors k l1).
  - split; [done|].
    rewrite Forall_forall in Hvalid.
    pose proof (Hvalid f Hf) as Hvf. pose proof (Hvalid g Hgin) as Hvg.
    apply validateFragment_None_iff in Hvf as [_ Hvf].
    apply validateFragment_None_iff in Hvg as [_ Hvg].
    exact (accepted_rank _ _ _ _ Hvf Hvg Hle).
Qed.

Lemma SortAndMerge_tier_precedence_witness :
  Forall (valid exampleSystemEnv exampleInnerEnv) (fragments exampleManager)
  ∧ innerFrag ∈ fragments exampleManager
  ∧ Env innerFrag !! "APP_HOME" = Some "/opt/app"
  ∧ ∃ g w, Env g !! "APP_HOME" = Some w
           ∧ merged_map (SortAndMerge canonical_order 0 exampleManager)
               !! "APP_HOME" = Some w
           ∧ (1 ≤ tier_rank (classify exampleSystemEnv exampleInnerEnv
                               (Name g)))%nat.
Proof.
  assert (Forall (valid exampleSystemEnv exampleInnerEnv)
            (fragments exampleManager)) as Hvalid.
  { repeat constructor. }
  assert (innerFrag ∈ fragments exampleManager) as Hin.
  { apply list_elem_of_further, list_elem_of_here. }
  split; [exact Hvalid|]. split; [exact Hin|]. split; [reflexivity|].
  destruct (SortAndMerge_tier_precedence exampleSystemEnv exampleInnerEnv
              canonical_order 0 exampleManager innerFrag "APP_HOME"
              "/opt/app" Hvalid Hin eq_refl)
    as (g & w & pre & _ & Hg & Hm & _ & _ & Hrank).
  exists g, w. split; [exact Hg|]. split; [exact Hm|]. exact Hrank.
Defined.

(** ** LoadAllYaml and SaveAllYaml *)

(** X13: LoadAllYaml on a readable file that unmarshals.  When the
    fragment sequence of the document has a null entry the call panics
    (SortAndMerge dereferences the nil pointer).  Otherwise it succeeds
    whatever the fragments are: the manager's fragments are replaced by
    the document's, sorted, without any validation; the manager is
    marked merged and stamped with the current time whatever the saved
    flag and time say; [keySources] is rebuilt from the document's
    fragments alone, while keys of the receiving manager's [merged]
    that no such fragment defines stay. *)
Theorem LoadAllYaml_success
    (parse_RFC3339 : string → option Time)
    (yaml_Unmarshal : string → option dumpStruct)
    (ord : RangeOrder) (now : Time) (fs : FS) (path data : string)
    (d : dumpStruct) (e : EnvManager) :
  os_ReadFile fs path = Some data → yaml_Unmarshal data = Some d →
  let r := LoadAllYaml parse_RFC3339 yaml_Unmarshal ord now fs path e in
  (None ∈ Fragments d → r.1 = Some LoadPanic)
  ∧ (∀ frags, Fragments d = Some <$> frags →
       r.1 = None
       ∧ fragments r.2 = sort_SliceStable frags
       ∧ sorted r.2 = true ∧ ctime r.2 = now
       ∧ (∀ k, keySources r.2 !! k
               = match contributors k (sort_SliceStable frags) with
                 | [] => None
                 | names => Some names
                 end)
       ∧ (∀ k, merged_map r.2 !! k
               = match last_value k (sort_SliceStable frags) with
                 | Some v => Some v
                 | None => merged_map e !! k
                 end)).
Proof.
  intros Hread Hd r. split.
  - intros Hnil. apply deref_all_None in Hnil.
    unfold r, LoadAllYaml. by rewrite Hread, Hd, Hnil.
  - intros frags Hfrags.
    destruct (LoadAllYaml_merges parse_RFC3339 yaml_Unmarshal ord now fs
                path data d frags e Hread Hd Hfrags)
      as (Hok & _ & Hfr & Hm & Hks).
    fold r in Hok, Hfr, Hm, Hks.
    split; [exact Hok|]. split; [exact Hfr|].
    split; [|split; [|by split]].
    + unfold r, LoadAllYaml.
      by rewrite Hread, Hd, Hfrags, deref_all_fmap_Some.
    + unfold r, LoadAllYaml.
      by rewrite Hread, Hd, Hfrags, deref_all_fmap_Some.
Qed.

Lemma LoadAllYaml_success_witness :
  let fs := writableFS {[ "all.yaml" := "saved" ]} in
  let unmarshal := λ _ : string,
    Some {| Sorted_ := false; CTime := "yesterday";
            Fragments := [Some customFrag; Some namelessFrag] |} in
  let r := LoadAllYaml (λ _, None) unmarshal canonical_order 9 fs "all.yaml"
             (SortAndMerge canonical_order 1 exampleManager) in
  validateFragment exampleSystemEnv exampleInnerEnv namelessFrag
  = Some ErrNoName
  ∧ r.1 = None
  ∧ fragments r.2 = [namelessFrag; customFrag]
  ∧ sorted r.2 = true ∧ ctime r.2 = 9.
Proof.
  intros fs unmarshal r. split; [reflexivity|].
  destruct (LoadAllYaml_success (λ _, None) unmarshal canonical_order 9 fs
              "all.yaml" "saved"
              {| Sorted_ := false; CTime := "yesterday";
                 Fragments := [Some customFrag; Some namelessFrag] |}
              (SortAndMerge canonical_order 1 exampleManager)
              eq_refl eq_refl) as (_ & Hok).
  destruct (Hok [customFrag; namelessFrag] eq_refl)
    as (Hnil & Hfr & Hs & Hc & _).
  fold r in Hnil, Hfr, Hs, Hc. done.
Defined.

(** A document with a null entry among its fragments: the call panics. *)
Example LoadAllYaml_null_entry :
  let unmarshal := λ _ : string,
    Some {| Sorted_ := true; CTime := "2024-05-01T10:00:00Z";
            Fragments := [Some customFrag; None] |} in
  (LoadAllYaml (λ _, None) unmarshal canonical_order 9
     (writableFS {[ "all.yaml" := "saved" ]}) "all.yaml" newManager).1
  = Some LoadPanic.
Proof. reflexivity. Qed.

(** X14: how LoadAllYaml ends.  It returns nil exactly when the file
    can be read, unmarshals and has no null entry among its fragments;
    it panics exactly when the file can be read and unmarshals with a
    null entry; otherwise it returns the read or the unmarshal error,
    and whenever it returns an error the manager is what it was. *)
Theorem LoadAllYaml_all_or_nothing
    (parse_RFC3339 : string → option Time)
    (yaml_Unmarshal : string → option dumpStruct)
    (ord : RangeOrder) (now : Time) (fs : FS) (path : string)
    (e : EnvManager) :
  let r := LoadAllYaml parse_RFC3339 yaml_Unmarshal ord now fs path e in
  (r.1 = None
   ↔ ∃ data d, os_ReadFile fs path = Some data
               ∧ yaml_Unmarshal data = Some d
               ∧ None ∉ Fragments d)
  ∧ (r.1 = Some LoadPanic
     ↔ ∃ data d, os_ReadFile fs path = Some data
                 ∧ yaml_Unmarshal data = Some d
                 ∧ None ∈ Fragments d)
  ∧ (os_ReadFile fs path = None →
       r = (Some (LoadError (ErrReadFile path)), e))
  ∧ (∀ data, os_ReadFile fs path = Some data →
       yaml_Unmarshal data = None → r = (Some (LoadError ErrUnmarshal), e))
  ∧ (∀ err, r.1 = Some (LoadError err) → r.2 = e).
Proof.
  cbn zeta. unfold LoadAllYaml.
  destruct (os_ReadFile fs path) as [data|].
  - destruct (yaml_Unmarshal data) as [d|] eqn:Hd; cbn [fst snd].
    + destruct (deref_all (Fragments d)) as [frags|] eqn:Hptrs;
        cbn [fst snd].
      * assert (None ∉ Fragments d) as Hnone.
        { rewrite <- deref_all_None. congruence. }
        split; [split; [by exists data, d|done]|].
        split; [split; [done|]|].
        { intros (? & ? & [= <-] & Hd' & Hin). congruence. }
        split; [done|]. split; [|done]. intros ? [= <-]. congruence.
      * assert (None ∈ Fragments d) as Hnone by by apply deref_all_None.
        split; [split; [done|]|].
        { intros (? & ? & [= <-] & Hd' & Hin). congruence. }
        split; [split; [by exists data, d|done]|].
        split; [done|]. split; [|done]. intros ? [= <-]. congruence.
    + split; [split; [done|]|].
      { intros (? & ? & [= <-] & ? & _). congruence. }
      split; [split; [done|]|].
      { intros (? & ? & [= <-] & ? & _). congruence. }
      split; [done|]. split; [done|done].
  - cbn [fst snd]. split; [split; [done|by intros (? & ? & ? & _)]|].
    split; [split; [done|by intros (? & ? & ? & _)]|].
    split; [done|]. split; [done|done].
Qed.

(** X15: save and load round trip.  A manager merged for the first time
    (its [merged] was never filled before), saved with SaveAllYaml and
    loaded into a fresh manager with LoadAllYaml, gives a manager with
    the same fragments, the same [merged] and the same [keySources],
    provided the YAML library reads back the document it wrote. *)
Theorem SaveAllYaml_LoadAllYaml_roundtrip
    (format_RFC3339 : Time → string) (parse_RFC3339 : string → option Time)
    (yaml_Marshal : dumpStruct → option string)
    (yaml_Unmarshal : string → option dumpStruct)
    (ord ord' : RangeOrder) (now now' : Time) (e0 : EnvManager) (fs : FS)
    (path data : string) :
  merged e0 = None →
  let e := SortAndMerge ord now e0 in
  yaml_Marshal (dump_of format_RFC3339 e) = Some data →
  yaml_Unmarshal data = Some (dump_of format_RFC3339 e) →
  creatable fs path = true →
  let e' := (LoadAllYaml parse_RFC3339 yaml_Unmarshal ord' now'
               (SaveAllYaml format_RFC3339 yaml_Marshal e fs path).2 path
               newManager).2 in
  fragments e' = fragments e
  ∧ merged e' = merged e
  ∧ keySources e' = keySources e.
Proof. apply roundtrip_fresh. Qed.

Lemma SaveAllYaml_LoadAllYaml_roundtrip_witness :
  let format := λ _ : Time, "2024-05-01T10:00:00Z" in
  let e := SortAndMerge canonical_order 5 exampleManager in
  let marshal := λ _ : dumpStruct, Some "saved state" in
  let unmarshal := λ _ : string, Some (dump_of format e) in
  let e' := (LoadAllYaml (λ _, Some 0) unmarshal reverse_order 6
               (SaveAllYaml format marshal e (writableFS ∅) "all.yaml").2
               "all.yaml" newManager).2 in
  merged exampleManager = None
  ∧ merged e' = merged e ∧ keySources e' = keySources e.
Proof.
  intros format e marshal unmarshal e'. split; [reflexivity|].
  destruct (SaveAllYaml_LoadAllYaml_roundtrip format (λ _, Some 0) marshal
              unmarshal canonical_order reverse_order 5 6 exampleManager
              (writableFS ∅) "all.yaml" "saved state"
              eq_refl eq_refl eq_refl eq_refl) as (_ & Hm & Hks).
  split; [exact Hm|exact Hks].
Defined.

(** X16: SaveAllYaml fails with the marshal error or the create error
    and then leaves the file system as it was; when it succeeds the
    file holds exactly the marshalled document, whatever it held
    before, and no other file changes. *)
Theorem SaveAllYaml_outcomes
    (format_RFC3339 : Time → string)
    (yaml_Marshal : dumpStruct → option string)
    (e : EnvManager) (fs : FS) (path : string) :
  let r := SaveAllYaml format_RFC3339 yaml_Marshal e fs path in
  match yaml_Marshal (dump_of format_RFC3339 e) with
  | None => r = (Some ErrMarshal, fs)
  | Some data =>
      if creatable fs path
      then r.1 = None
           ∧ files r.2 = <[path := data]> (files fs)
           ∧ creatable r.2 = creatable fs
      else r = (Some (ErrCreate path), fs)
  end.
Proof.
  cbn zeta. unfold SaveAllYaml, dump_of. cbn zeta.
  destruct (yaml_Marshal _) as [data|]; [|done].
  unfold os_Create. destruct (creatable fs path); [|done].
  cbn [fst snd]. split; [done|]. split; [|done].
  unfold Fprint. cbn [files]. rewrite lookup_insert_eq. cbn.
  by rewrite insert_insert_eq.
Qed.

(** ** The writers *)

(** X17: when the destination cannot be created, BuildBash, BuildZsh,
    BuildPsh and WriteMeta of a merged manager return the create error
    and leave the file system as it was. *)
Theorem writers_create_failure
    (format_RFC3339 : Time → string) (ord : RangeOrder) (e : EnvManager)
    (fs : FS) (dst : string) :
  sorted e = true → creatable fs dst = false →
  BuildBash format_RFC3339 ord e fs dst = (Some (ErrCreate dst), fs)
  ∧ BuildZsh format_RFC3339 ord e fs dst = (Some (ErrCreate dst), fs)
  ∧ BuildPsh format_RFC3339 ord e fs dst = (Some (ErrCreate dst), fs)
  ∧ WriteMeta format_RFC3339 e fs dst = (Some (ErrCreate dst), fs).
Proof.
  intros Hs Hc. unfold BuildBash, BuildZsh, BuildPsh, WriteMeta, os_Create.
  by rewrite Hs, Hc.
Qed.

Lemma writers_create_failure_witness :
  let e := SortAndMerge canonical_order 0 exampleManager in
  let fs := {| files := {[ "env.sh" := "old" ]}; creatable := λ _, false |} in
  sorted e = true ∧ creatable fs "env.sh" = false
  ∧ BuildBash (λ _, "2024-05-01T10:00:00Z") canonical_order e fs "env.sh"
    = (Some (ErrCreate "env.sh"), fs).
Proof.
  intros e fs. split; [reflexivity|]. split; [reflexivity|].
  exact (proj1 (writers_create_failure (λ _, "2024-05-01T10:00:00Z")
                  canonical_order e fs "env.sh" eq_refl eq_refl)).
Defined.





(** ** WriteMeta and ReadEnvTime *)



(** X21: ReadEnvTime fails with the read error when the file is
    missing, and with the parse error, carrying the trimmed text, when
    the trimmed content of the file is not an RFC 3339 time; it
    succeeds exactly when the file exists and its trimmed content
    parses. *)
Theorem ReadEnvTime_outcomes
    (parse_RFC3339 : string → option Time)
    (strings_TrimSpace : string → string) (fs : FS) (dst : string) :
  let r := ReadEnvTime strings_TrimSpace parse_RFC3339 fs dst in
  (os_ReadFile fs dst = None → r = inl (TimeReadError dst))
  ∧ (∀ data, os_ReadFile fs dst = Some data →
       parse_RFC3339 (strings_TrimSpace data) = None →
       r = inl (TimeParseError (strings_TrimSpace data)))
  ∧ (∀ t, r = inr t
          ↔ ∃ data, os_ReadFile fs dst = Some data
                    ∧ parse_RFC3339 (strings_TrimSpace data) = Some t).
Proof.
  cbn zeta. unfold ReadEnvTime.
  destruct (os_ReadFile fs dst) as [data|].
  - split; [done|]. split.
    + intros ? [= <-] Hp. by rewrite Hp.
    + intros t. destruct (parse_RFC3339 (strings_TrimSpace data)) eqn:Hp.
      * split; [intros [= <-]; by exists data|].
        intros (? & [= <-] & Ht). congruence.
      * split; [done|]. intros (? & [= <-] & Ht). congruence.
  - split; [done|]. split; [done|].
    intros t. split; [done|by intros (? & ? & _)].
Qed.

(** ** The shape of the search results *)

Lemma filter_perm {A} (P : A → bool) (l l' : list A) :
  l ≡ₚ l' → List.filter P l ≡ₚ List.filter P l'.
Proof.
  induction 1 as [|x l l' _ IH|x y l|l l' l'' _ IH1 _ IH2]; cbn.
  - done.
  - destruct (P x); [by constructor|done].
  - destruct (P x), (P y); try done. apply Permutation_swap.
  - by rewrite IH1.
Qed.

Lemma search_loop_groups {Regexp : Type}
    (MatchString : Regexp → string → bool) (re : Regexp) (ord : RangeOrder)
    (i : nat) (frags : list EnvFragment) :
  ∃ groups,
    search_loop MatchString re ord i frags = List.concat groups
    ∧ Forall2 (λ frag group,
                 ∃ envs, group = envs ++ script_results MatchString re frag
                         ∧ envs ≡ₚ env_results MatchString re frag)
        frags groups.
Proof.
  revert i. induction frags as [|frag frags IH]; intros i.
  - exists []. split; [done|constructor].
  - destruct (IH (S i)) as (groups & Hloop & Hall).
    exists (search_fragment MatchString re (range_of ord i (Env frag)) frag
            :: groups).
    split; [cbn [search_loop List.concat]; by rewrite Hloop|].
    constructor; [|done].
    eexists. split; [reflexivity|].
    unfold env_results. apply fmap_Permutation.
    apply filter_perm, range_perm.
Qed.

(** X22: the results of Search come fragment by fragment, in the order
    of the (sorted) fragment list; a fragment's results are those of
    its matching [Env] entries first, in the order the map is walked,
    then those of its matching scripts in the order of the scripts. *)
Theorem Search_grouped_by_fragment {Regexp : Type}
    (regexp_Compile : string → option Regexp)
    (MatchString : Regexp → string → bool)
    (ord : RangeOrder) (e : EnvManager) (pattern : string) (re : Regexp) :
  sorted e = true → regexp_Compile pattern = Some re →
  ∃ groups,
    Search regexp_Compile MatchString ord e pattern = inr (List.concat groups)
    ∧ Forall2 (λ frag group,
                 ∃ envs, group = envs ++ script_results MatchString re frag
                         ∧ envs ≡ₚ env_results MatchString re frag)
        (fragments e) groups.
Proof.
  intros Hs Hre. unfold Search. rewrite Hs, Hre. cbn [negb].
  destruct (search_loop_groups MatchString re ord 0 (fragments e))
    as (groups & -> & Hall).
  by exists groups.
Qed.

Lemma Search_grouped_by_fragment_witness :
  let e := SortAndMerge canonical_order 0 exampleManager in
  sorted e = true
  ∧ literal_Compile "echo" = Some "echo"
  ∧ ∃ groups,
      Search literal_Compile literal_MatchString reverse_order e "echo"
      = inr (List.concat groups)
      ∧ List.length groups = 3%nat.
Proof.
  intros e. split; [reflexivity|]. split; [reflexivity|].
  destruct (Search_grouped_by_fragment literal_Compile literal_MatchString
              reverse_order e "echo" "echo" eq_refl eq_refl)
    as (groups & Hres & Hall).
  exists groups. split; [exact Hres|].
  apply Forall2_length in Hall. rewrite <- Hall. reflexivity.
Defined.

(** ** Managers that are only fed and merged *)

Section Reachable.
Variables SystemEnv InnerComponentEnv : gmap string Z.
Variable format_RFC3339 : Time → string.
Variable parse_RFC3339 : string → option Time.
Variable yaml_Decoder : string → list Decoded.
Variable yaml_Marshal : dumpStruct → option string.
Variable yaml_Unmarshal : string → option dumpStruct.

Local Abbreviation step' :=
  (step SystemEnv InnerComponentEnv format_RFC3339 parse_RFC3339
     yaml_Decoder yaml_Marshal yaml_Unmarshal).
Local Abbreviation run' :=
  (run SystemEnv InnerComponentEnv format_RFC3339 parse_RFC3339
     yaml_Decoder yaml_Marshal yaml_Unmarshal).

Local Abbreviation consistent :=
  (consistent_manager SystemEnv InnerComponentEnv).

Lemma consistent_newManager : consistent newManager.
Proof.
  split; [constructor|]. split; intros k [v Hv]; by cbn in Hv.
Qed.

Lemma consistent_with_more added e :
  Forall (valid SystemEnv InnerComponentEnv) added →
  consistent e → consistent (with_more added e).
Proof.
  intros Hadded (Hv & Hm & Hks). split; [by apply Forall_app|].
  split; [|exact Hks].
  intros k Hk. cbn [with_more fragments]. apply Exists_app. left.
  by apply Hm.
Qed.

Lemma consistent_SortAndMerge ord now e :
  consistent e → consistent (SortAndMerge ord now e).
Proof.
  intros (Hv & Hm & Hks). split; [|split].
  - rewrite SortAndMerge_fragments. by rewrite sort_SliceStable_perm.
  - intros k. rewrite SortAndMerge_merged, SortAndMerge_fragments.
    intros Hk. apply Exists_exists.
    destruct (last_value k (sort_SliceStable (fragments e))) as [v|] eqn:Hl.
    + apply last_value_Some in Hl as (f & Hf & Hfv).
      exists f. split; [done|by exists v].
    + apply Hm, Exists_exists in Hk as (f & Hf & Hfk).
      exists f. split; [|done]. by rewrite sort_SliceStable_perm.
  - intros k. rewrite SortAndMerge_merged, SortAndMerge_keySources.
    destruct (contributors k (sort_SliceStable (fragments e))) eqn:Hc;
      [by intros [? ?]|].
    intros _.
    destruct (last_value k (sort_SliceStable (fragments e))) eqn:Hl;
      [by eexists|].
    apply last_value_None, contributors_nil in Hl. congruence.
Qed.

Lemma consistent_step e fs c :
  no_load c = true → consistent e → consistent (step' (e, fs) c).1.1.
Proof.
  intros Hc He. destruct c; cbn [step fst snd]; try done.
  - destruct (FeedFile_appends SystemEnv InnerComponentEnv yaml_Decoder
                fs fpath e) as (added & -> & Hadded).
    apply consistent_with_more; [|done].
    eapply Forall_impl; [exact Hadded|]. by intros f [? _].
  - by apply consistent_SortAndMerge.
Qed.

Lemma consistent_run cs e fs ran :
  Forall (λ c, no_load c = true) cs → consistent e →
  consistent (run' cs (e, fs) ran).1.1.
Proof.
  intros Hcs. revert e fs ran.
  induction Hcs as [|c cs Hc _ IH]; intros e fs ran He; [done|].
  cbn [run]. destruct (call_panics _ _ (e, fs) c); [done|].
  destruct (step' (e, fs) c) as [[e' fs'] b] eqn:Hstep. cbn [fst snd].
  apply IH. change e' with (e', fs', b).1.1. rewrite <- Hstep.
  by apply consistent_step.
Qed.
End Reachable.

(** X23: a manager that starts fresh and is never loaded from a saved
    state stays consistent through any sequence of FeedFile,
    SortAndMerge, Build, Search, WriteMeta and SaveAllYaml calls: every
    fragment in the store passed validation, every key of [merged] is
    defined by some fragment of the store (no value outlives its
    fragments), and every key that has a [keySources] chain has a
    value in [merged]. *)
Theorem run_without_load_consistent
    (SystemEnv InnerComponentEnv : gmap string Z)
    (format_RFC3339 : Time → string) (parse_RFC3339 : string → option Time)
    (yaml_Decoder : string → list Decoded)
    (yaml_Marshal : dumpStruct → option string)
    (yaml_Unmarshal : string → option dumpStruct)
    (cs : list Call) (fs0 : FS) :
  Forall (λ c, no_load c = true) cs →
  let e := (run SystemEnv InnerComponentEnv format_RFC3339 parse_RFC3339
              yaml_Decoder yaml_Marshal yaml_Unmarshal cs (newManager, fs0)
              false).1.1 in
  Forall (valid SystemEnv InnerComponentEnv) (fragments e)
  ∧ (∀ k, is_Some (merged_map e !! k) →
          Exists (λ f, is_Some (Env f !! k)) (fragments e))
  ∧ (∀ k, is_Some (keySources e !! k) → is_Some (merged_map e !! k)).
Proof.
  intros Hcs. cbn zeta.
  apply (consistent_run SystemEnv InnerComponentEnv format_RFC3339
           parse_RFC3339 yaml_Decoder yaml_Marshal yaml_Unmarshal
           cs newManager fs0 false Hcs).
  apply consistent_newManager.
Qed.

Lemma run_without_load_consistent_witness :
  let cs := [ CallFeedFile "system.yaml";
              CallSortAndMerge canonical_order 1;
              CallBuildBash canonical_order "env.sh";
              CallFeedFile "state.yaml";
              CallSortAndMerge reverse_order 2 ] in
  let e := (run exampleSystemEnv exampleInnerEnv
              (λ _, "2024-05-01T10:00:00Z") (λ _, None) scenario_Decoder
              (λ _, None) scenario_Unmarshal cs (newManager, scenarioFS)
              false).1.1 in
  Forall (λ c, no_load c = true) cs
  ∧ fragments e = [with_source "system.yaml" systemFrag]
  ∧ Forall (valid exampleSystemEnv exampleInnerEnv) (fragments e).
Proof.
  intros cs e.
  assert (Forall (λ c, no_load c = true) cs) as Hcs.
  { repeat constructor. }
  split; [exact Hcs|]. split; [reflexivity|].
  exact (proj1 (run_without_load_consistent exampleSystemEnv exampleInnerEnv
                  (λ _, "2024-05-01T10:00:00Z") (λ _, None) scenario_Decoder
                  (λ _, None) scenario_Unmarshal cs scenarioFS Hcs)).
Defined.
